(** * Record-level concurrency control of the FASTER C wrapper

    A shallow embedding of [cc/src/core/faster-c.cc]: the generation lock
    ([GenLock], [AtomicGenLock]), the record slot ([Value]) and the three
    contexts that read and mutate a slot ([ReadContext], [UpsertContext],
    [RmwContext]), followed by the properties of these operations.

    Unsigned 64-bit quantities are integers of [Z] with the wrap-around
    written out ([wrap64]).  A slot is its three header words together with
    the bytes that follow the header in memory.  Operations on a slot run in
    a small state monad that threads the slot and records the calls made on
    the generation lock, the stores into the slot and the invocations of the
    user callback. *)

From Stdlib Require Import ZArith Bool List Lia.
From Stdlib Require Import Strings.Byte Strings.String.
Import ListNotations.
Local Open Scope Z_scope.

(** ** Machine words *)

(** Arithmetic on [uint64_t] is arithmetic modulo [2^64]. *)
Definition wrap64 (z : Z) : Z := z mod 2 ^ 64.

Definition uint64 (z : Z) : Prop := 0 <= z < 2 ^ 64.

(** A payload that lies in a 64-bit address space together with the header
    of a slot; [header] is the size of that header. *)
Definition addressable (header : Z) (payload : list byte) : Prop :=
  header + Z.of_nat (List.length payload) < 2 ^ 64.

(** [std::memcpy(dst, src, n)] on the contents of the two regions: the
    first [n] bytes of [dst] become the first [n] bytes of [src]. *)
Definition memcpy (dst src : list byte) (n : Z) : list byte :=
  firstn (Z.to_nat n) src ++ skipn (Z.to_nat n) dst.

(** ** class GenLock *)

Module GenLock.

(** The bit-field view of the union: [gen_number : 62], [locked : 1],
    [replaced : 1], laid out from the least significant bit. *)
Record t : Set := mk {
  gen_number : Z;
  locked : bool;
  replaced : bool
}.

(** The [control_] view of the union. *)
Definition control_ (g : t) : Z :=
  gen_number g mod 2 ^ 62
  + (if locked g then 2 ^ 62 else 0)
  + (if replaced g then 2 ^ 63 else 0).

(** [GenLock(uint64_t control)]. *)
Definition of_control (control : Z) : t :=
  {| gen_number := Z.land control (Z.ones 62);
     locked := Z.testbit control 62;
     replaced := Z.testbit control 63 |}.

Definition set_locked (g : t) (b : bool) : t :=
  {| gen_number := gen_number g; locked := b; replaced := replaced g |}.

Definition set_replaced (g : t) (b : bool) : t :=
  {| gen_number := gen_number g; locked := locked g; replaced := b |}.

End GenLock.

(** ** class AtomicGenLock *)

Module AtomicGenLock.

(** The holder is the atomic word [control_]. *)
Definition t : Set := Z.

(** [AtomicGenLock()]. *)
Definition init : t := 0.

Definition load (control_ : t) : GenLock.t := GenLock.of_control control_.

Definition store (desired : GenLock.t) : t := GenLock.control_ desired.

(** [compare_exchange_strong(expected, desired)]: the outcome, the new
    contents of the atomic and the new contents of [expected]. *)
Definition compare_exchange_strong (control_ expected desired : Z)
  : bool * Z * Z :=
  if control_ =? expected then (true, desired, expected)
  else (false, control_, control_).

Definition fetch_sub (control_ arg : Z) : Z := wrap64 (control_ - arg).

Definition fetch_add (control_ arg : Z) : Z := wrap64 (control_ + arg).

(** [try_lock(bool& replaced)]: the returned flag, the out-parameter
    [replaced] and the atomic afterwards. *)
Definition try_lock (control_ : t) : bool * bool * t :=
  let replaced := false in
  let expected := GenLock.of_control control_ in
  let expected := GenLock.set_locked expected false in
  let expected := GenLock.set_replaced expected false in
  let desired := GenLock.of_control (GenLock.control_ expected) in
  let desired := GenLock.set_locked desired true in
  let '(ok, control_', expected_control) :=
    compare_exchange_strong control_ (GenLock.control_ expected)
                            (GenLock.control_ desired) in
  if ok then (true, replaced, control_')
  else if GenLock.replaced (GenLock.of_control expected_control)
       then (false, true, control_')
       else (false, replaced, control_').

(** [unlock(bool replaced)], branch for branch as in the source. *)
Definition unlock (replaced : bool) (control_ : t) : t :=
  if replaced then
    let sub_delta := wrap64 (Z.shiftl 1 62 - 1) in
    fetch_sub control_ sub_delta
  else
    let add_delta := wrap64 (Z.shiftl 1 63 - Z.shiftl 1 62 + 1) in
    fetch_add control_ add_delta.

End AtomicGenLock.

(** ** class Value *)

Module Value.

(** The header words and the bytes at [this + 1]. *)
Record t : Set := mk {
  gen_lock_ : AtomicGenLock.t;
  size_ : Z;
  length_ : Z;
  buffer : list byte
}.

(** [sizeof(Value)]: an atomic 64-bit word and two [uint64_t]. *)
Definition sizeof : Z := 24.

Definition set_gen_lock (v : t) (c : AtomicGenLock.t) : t :=
  {| gen_lock_ := c; size_ := size_ v; length_ := length_ v;
     buffer := buffer v |}.

Definition set_length (v : t) (n : Z) : t :=
  {| gen_lock_ := gen_lock_ v; size_ := size_ v; length_ := n;
     buffer := buffer v |}.

Definition set_buffer (v : t) (b : list byte) : t :=
  {| gen_lock_ := gen_lock_ v; size_ := size_ v; length_ := length_ v;
     buffer := b |}.

(** Bytes allocated behind the header. *)
Definition capacity (v : t) : Z := size_ v - sizeof.

(** The three header words are [uint64_t]. *)
Definition well_formed (v : t) : Prop :=
  uint64 (gen_lock_ v) /\ uint64 (size_ v) /\ uint64 (length_ v).

(** A slot as the allocator hands it out: [size_] accounts for the header
    and for the bytes behind it, and the payload lies within them. *)
Definition allocated (v : t) : Prop :=
  sizeof <= size_ v
  /\ Z.of_nat (List.length (buffer v)) = capacity v
  /\ length_ v <= capacity v.

Definition is_locked (v : t) : bool :=
  GenLock.locked (AtomicGenLock.load (gen_lock_ v)).

Definition is_replaced (v : t) : bool :=
  GenLock.replaced (AtomicGenLock.load (gen_lock_ v)).

(** [size()]: the size field converted to [uint32_t]. *)
Definition size (v : t) : Z := size_ v mod 2 ^ 32.

End Value.

(** ** Pointers and callbacks *)

(** The pointers the contexts hand around: the null pointer, the buffer of
    the slot ([value.buffer()]) and the caller's [modification_]. *)
Inductive ptr : Set := NULL | value_buffer | modification_ptr.

Definition ptr_eqb (p q : ptr) : bool :=
  match p, q with
  | NULL, NULL | value_buffer, value_buffer
  | modification_ptr, modification_ptr => true
  | _, _ => false
  end.

Inductive Status : Set := Ok | NotFound.

(** Modelled from the spec: the type [rmw_callback] is declared in
    [faster-c.h], which is not part of the sources at hand.  By section 4.4
    the merge function is given the old payload (pointer and length), the
    modification (pointer and length) and an output pointer, possibly null,
    and returns the resulting length.  The first argument is the memory the
    callback can read through its pointers; the second component of the
    result is the sequence of bytes the callback stores through the output
    pointer, starting at its first byte (nothing is stored through a null
    pointer, and the old payload is passed as a pointer to [const]). *)
Definition rmw_callback : Type :=
  (ptr -> list byte) -> ptr -> Z -> ptr -> Z -> ptr -> Z * list byte.

(** What a [read_callback] is handed: the bytes it finds behind the buffer
    pointer, the length and the status. *)
Record read_result : Set := mk_read {
  read_bytes : list byte;
  read_length : Z;
  read_status : Status
}.

(** ** Effects *)

(** The calls and stores an operation performs, in program order. *)
Inductive event : Type :=
| ev_try_lock (success replaced : bool)
| ev_yield
| ev_unlock (replaced : bool)
| ev_store_length (n : Z)
| ev_memcpy (n : Z)
| ev_cb (current : ptr) (current_length : Z)
        (modification : ptr) (modification_length : Z)
        (dst : ptr) (result : Z).

Record world : Type := mk_world {
  value : Value.t;
  log : list event
}.

(** State monad over [world]; [None] is a spin loop that did not leave
    within the given number of attempts. *)
Definition M (A : Type) : Type := world -> option (A * world).

Definition ret {A : Type} (a : A) : M A := fun w => Some (a, w).

Definition bind {A B : Type} (m : M A) (k : A -> M B) : M B :=
  fun w => match m w with
           | Some (a, w') => k a w'
           | None => None
           end.

Declare Scope m_scope.
Delimit Scope m_scope with m.
Notation "x <- m ;; k" := (bind m (fun x => k))
  (at level 61, m at next level, right associativity) : m_scope.
Notation "m ;;; k" := (bind m (fun _ => k))
  (at level 61, right associativity) : m_scope.
Local Open Scope m_scope.

Definition spinning {A : Type} : M A := fun _ => None.

Definition emit (e : event) : M unit :=
  fun w => Some (tt, {| value := value w; log := log w ++ [e] |}).

Definition get_value : M Value.t := fun w => Some (value w, w).

Definition put_value (v : Value.t) : M unit :=
  fun w => Some (tt, {| value := v; log := log w |}).

(** [value.gen_lock_.load()]. *)
Definition gen_lock_load : M GenLock.t :=
  v <- get_value ;; ret (AtomicGenLock.load (Value.gen_lock_ v)).

(** [value.gen_lock_.try_lock(replaced)]. *)
Definition gen_lock_try_lock : M (bool * bool) :=
  v <- get_value ;;
  let '(ok, replaced, c) := AtomicGenLock.try_lock (Value.gen_lock_ v) in
  put_value (Value.set_gen_lock v c) ;;;
  emit (ev_try_lock ok replaced) ;;;
  ret (ok, replaced).

(** [value.gen_lock_.unlock(replaced)]. *)
Definition gen_lock_unlock (replaced : bool) : M unit :=
  v <- get_value ;;
  put_value
    (Value.set_gen_lock v (AtomicGenLock.unlock replaced (Value.gen_lock_ v))) ;;;
  emit (ev_unlock replaced).

(** [while(!value.gen_lock_.try_lock(replaced) && !replaced) yield();]
    with at most [fuel] attempts; the result is the final [replaced]. *)
Fixpoint acquire (fuel : nat) : M bool :=
  match fuel with
  | O => spinning
  | S fuel' =>
      r <- gen_lock_try_lock ;;
      if negb (fst r) && negb (snd r)
      then emit ev_yield ;;; acquire fuel'
      else ret (snd r)
  end.

(** [value.length_ = n]. *)
Definition store_length (n : Z) : M unit :=
  v <- get_value ;;
  put_value (Value.set_length v n) ;;;
  emit (ev_store_length n).

(** [std::memcpy(value.buffer(), src, n)]. *)
Definition memcpy_to_buffer (src : list byte) (n : Z) : M unit :=
  v <- get_value ;;
  put_value (Value.set_buffer v (memcpy (Value.buffer v) src n)) ;;;
  emit (ev_memcpy n).

(** ** class ReadContext *)

Module ReadContext.

(** The bytes the callback finds when it follows [buffer] for [length]
    bytes. *)
Definition deliver (v : Value.t) (buffer : ptr) (length : Z)
  : read_result :=
  {| read_bytes :=
       match buffer with
       | value_buffer => firstn (Z.to_nat length) (Value.buffer v)
       | _ => []
       end;
     read_length := length;
     read_status := Ok |}.

(** [Get(const Value&)]. *)
Definition Get : M read_result :=
  v <- get_value ;;
  ret (deliver v value_buffer (Value.length_ v)).

(** The [do ... while] loop of [GetAtomic], at most [fuel] rounds. *)
Fixpoint GetAtomic_loop (fuel : nat) : M (ptr * Z) :=
  match fuel with
  | O => spinning
  | S fuel' =>
      before <- gen_lock_load ;;
      let buffer := value_buffer in
      v <- get_value ;;
      let length := Value.length_ v in
      after <- gen_lock_load ;;
      if negb (GenLock.gen_number before =? GenLock.gen_number after)
      then GetAtomic_loop fuel'
      else ret (buffer, length)
  end.

(** [GetAtomic(const Value&)]: what [cb_] is called with. *)
Definition GetAtomic (fuel : nat) : M read_result :=
  r <- GetAtomic_loop fuel ;;
  v <- get_value ;;
  ret (deliver v (fst r) (snd r)).

End ReadContext.

(** ** class UpsertContext *)

Module UpsertContext.

Record t : Set := mk {
  key_ : Z;
  input_ : list byte;
  length_ : Z
}.

(** [Put(Value&)]. *)
Definition Put (ctx : t) : M unit :=
  v <- get_value ;;
  put_value
    {| Value.gen_lock_ :=
         AtomicGenLock.store (GenLock.of_control 0);
       Value.size_ := wrap64 (Value.sizeof + length_ ctx);
       Value.length_ := length_ ctx;
       Value.buffer := memcpy (Value.buffer v) (input_ ctx) (length_ ctx) |}.

(** [PutAtomic(Value&)]. *)
Definition PutAtomic (ctx : t) (fuel : nat) : M bool :=
  replaced <- acquire fuel ;;
  if replaced : bool then
    ret false
  else
    v <- get_value ;;
    if Value.size_ v <? wrap64 (Value.sizeof + length_ ctx) then
      gen_lock_unlock true ;;;
      ret false
    else
      store_length (length_ ctx) ;;;
      memcpy_to_buffer (input_ ctx) (length_ ctx) ;;;
      gen_lock_unlock false ;;;
      ret true.

(** [value_size()]: [sizeof(Value) + length_], computed in 64 bits and
    returned as [uint32_t]. *)
Definition value_size (ctx : t) : Z :=
  wrap64 (Value.sizeof + length_ ctx) mod 2 ^ 32.

End UpsertContext.

(** ** class RmwContext *)

Module RmwContext.

Record t : Type := mk {
  key_ : Z;
  modification_ : list byte;
  length_ : Z;
  cb_ : rmw_callback
}.

(** Memory as the callback sees it during a call on slot [v]. *)
Definition deref (ctx : t) (v : Value.t) (p : ptr) : list byte :=
  match p with
  | NULL => []
  | value_buffer => Value.buffer v
  | modification_ptr => modification_ ctx
  end.

(** The bytes [out] stored through [dst]. *)
Definition store_through (dst : ptr) (out : list byte) (v : Value.t)
  : Value.t :=
  match dst with
  | value_buffer =>
      Value.set_buffer v (out ++ skipn (List.length out) (Value.buffer v))
  | _ => v
  end.

(** [cb_(current, current_length, modification, modification_length, dst)]. *)
Definition call_cb (ctx : t) (current : ptr) (current_length : Z)
           (modification : ptr) (modification_length : Z) (dst : ptr)
  : M Z :=
  v <- get_value ;;
  let '(result, out) :=
    cb_ ctx (deref ctx v) current current_length
        modification modification_length dst in
  put_value (store_through dst out v) ;;;
  emit (ev_cb current current_length modification modification_length
              dst result) ;;;
  ret result.

(** [RmwAtomic(Value&)]. *)
Definition RmwAtomic (ctx : t) (fuel : nat) : M bool :=
  replaced <- acquire fuel ;;
  if replaced : bool then
    ret false
  else
    v <- get_value ;;
    new_length <- call_cb ctx value_buffer (Value.length_ v)
                          modification_ptr (length_ ctx) NULL ;;
    v <- get_value ;;
    if Value.size_ v <? wrap64 (Value.sizeof + new_length) then
      gen_lock_unlock true ;;;
      ret false
    else
      v <- get_value ;;
      call_cb ctx value_buffer (Value.length_ v)
              modification_ptr (length_ ctx) value_buffer ;;;
      store_length new_length ;;;
      gen_lock_unlock false ;;;
      ret true.

(** [value_size()]. *)
Definition value_size (ctx : t) : Z :=
  wrap64 (Value.sizeof + length_ ctx) mod 2 ^ 32.

(** [RmwInitial(Value&)]. *)
Definition RmwInitial (ctx : t) : M unit :=
  v <- get_value ;;
  put_value
    {| Value.gen_lock_ := AtomicGenLock.store (GenLock.mk 0 false false);
       Value.size_ := wrap64 (Value.sizeof + length_ ctx);
       Value.length_ := length_ ctx;
       Value.buffer :=
         memcpy (Value.buffer v) (modification_ ctx) (length_ ctx) |}.

End RmwContext.

(** Running an operation on a slot, with an empty log. *)
Definition run {A : Type} (m : M A) (v : Value.t) : option (A * world) :=
  m {| value := v; log := [] |}.

(** The two calls [RmwAtomic] makes on slot [v]: the size-only call with a
    null output pointer, and the call with the buffer as output. *)
Definition dry_run (ctx : RmwContext.t) (v : Value.t) : Z * list byte :=
  RmwContext.cb_ ctx (RmwContext.deref ctx v) value_buffer
                 (Value.length_ v) modification_ptr
                 (RmwContext.length_ ctx) NULL.

Definition real_run (ctx : RmwContext.t) (v : Value.t) : Z * list byte :=
  RmwContext.cb_ ctx (RmwContext.deref ctx v) value_buffer
                 (Value.length_ v) modification_ptr
                 (RmwContext.length_ ctx) value_buffer.

(** ** Sequences of operations on one slot *)

(** The operations callers apply to a slot.  [unlock] is for the caller
    whose [try_lock] succeeded, so the slot carries, next to its contents,
    whether such a caller exists. *)
Inductive op : Type :=
| op_try_lock
| op_unlock (replaced : bool)
| op_PutAtomic (ctx : UpsertContext.t)
| op_RmwAtomic (ctx : RmwContext.t).

Record slot : Type := mk_slot {
  contents : Value.t;
  held : bool
}.

(** [step s o r s']: operation [o] on [s] completes with result [r] and
    leaves [s'].  [PutAtomic] and [RmwAtomic] complete when their spin loop
    leaves within some number of attempts. *)
Inductive step : slot -> op -> bool -> slot -> Prop :=
| step_try_lock (v : Value.t) (h ok replaced : bool) (c : Z) :
    AtomicGenLock.try_lock (Value.gen_lock_ v) = (ok, replaced, c) ->
    step (mk_slot v h) op_try_lock ok
         (mk_slot (Value.set_gen_lock v c) (h || ok))
| step_unlock (v : Value.t) (replaced : bool) :
    step (mk_slot v true) (op_unlock replaced) true
         (mk_slot (Value.set_gen_lock
                     v (AtomicGenLock.unlock replaced (Value.gen_lock_ v)))
                  false)
| step_PutAtomic (v : Value.t) (h : bool) (ctx : UpsertContext.t)
                 (fuel : nat) (r : bool) (w : world) :
    run (UpsertContext.PutAtomic ctx fuel) v = Some (r, w) ->
    step (mk_slot v h) (op_PutAtomic ctx) r (mk_slot (value w) h)
| step_RmwAtomic (v : Value.t) (h : bool) (ctx : RmwContext.t)
                 (fuel : nat) (r : bool) (w : world) :
    run (RmwContext.RmwAtomic ctx fuel) v = Some (r, w) ->
    step (mk_slot v h) (op_RmwAtomic ctx) r (mk_slot (value w) h).

(** Finite runs, with the operations applied and their results. *)
Inductive steps : slot -> list (op * bool) -> slot -> Prop :=
| steps_nil (s : slot) : steps s [] s
| steps_cons (s s' s'' : slot) (o : op) (r : bool) (tr : list (op * bool)) :
    step s o r s' -> steps s' tr s'' -> steps s ((o, r) :: tr) s''.

(** The lock is held only while the word says locked and not replaced. *)
Definition consistent (s : slot) : Prop :=
  uint64 (Value.gen_lock_ (contents s)) /\
  (held s = true ->
   Value.is_locked (contents s) = true /\
   Value.is_replaced (contents s) = false).

(** A slot as [Value()] leaves its lock, with nobody holding it. *)
Definition fresh (s : slot) : Prop :=
  Value.gen_lock_ (contents s) = AtomicGenLock.init /\ held s = false.

(** ** One writer and several readers, interleaved *)

Module Interleaving.

(** Program points of [PutAtomic], one per access to the slot. *)
Inductive writer_pc : Set :=
| w_try_lock
| w_check
| w_store_length
| w_memcpy
| w_unlock (replaced : bool)
| w_return (result : bool).

(** Program points of [GetAtomic], with the locals live at each. *)
Inductive reader_pc : Set :=
| r_load_before
| r_capture (before : GenLock.t)
| r_load_after (before : GenLock.t) (buffer : ptr) (length : Z)
| r_call_cb (buffer : ptr) (length : Z)
| r_return (delivered : read_result).

Record config : Set := mk_config {
  shared : Value.t;
  writer : writer_pc;
  readers : list reader_pc
}.

Inductive thread : Set := the_writer | reader (i : nat).

(** One step of [PutAtomic]: the slot and the program point after it. *)
Definition writer_step (ctx : UpsertContext.t) (v : Value.t)
           (pc : writer_pc) : Value.t * writer_pc :=
  match pc with
  | w_try_lock =>
      let '(ok, replaced, c) :=
        AtomicGenLock.try_lock (Value.gen_lock_ v) in
      (Value.set_gen_lock v c,
       if negb ok && negb replaced then w_try_lock
       else if replaced then w_return false
       else w_check)
  | w_check =>
      (v,
       if Value.size_ v
          <? wrap64 (Value.sizeof + UpsertContext.length_ ctx)
       then w_unlock true
       else w_store_length)
  | w_store_length =>
      (Value.set_length v (UpsertContext.length_ ctx), w_memcpy)
  | w_memcpy =>
      (Value.set_buffer
         v (memcpy (Value.buffer v) (UpsertContext.input_ ctx)
                   (UpsertContext.length_ ctx)),
       w_unlock false)
  | w_unlock replaced =>
      (Value.set_gen_lock
         v (AtomicGenLock.unlock replaced (Value.gen_lock_ v)),
       w_return (negb replaced))
  | w_return result => (v, w_return result)
  end.

(** One step of [GetAtomic]; a reader never stores into the slot.  The
    callback follows the buffer pointer when it is called. *)
Definition reader_step (v : Value.t) (pc : reader_pc) : reader_pc :=
  match pc with
  | r_load_before => r_capture (AtomicGenLock.load (Value.gen_lock_ v))
  | r_capture before => r_load_after before value_buffer (Value.length_ v)
  | r_load_after before buffer length =>
      let after := AtomicGenLock.load (Value.gen_lock_ v) in
      if negb (GenLock.gen_number before =? GenLock.gen_number after)
      then r_load_before
      else r_call_cb buffer length
  | r_call_cb buffer length =>
      r_return (ReadContext.deliver v buffer length)
  | r_return delivered => r_return delivered
  end.

Fixpoint update_nth {A : Type} (i : nat) (f : A -> A) (l : list A)
  : list A :=
  match l, i with
  | [], _ => []
  | x :: l', O => f x :: l'
  | x :: l', S i' => x :: update_nth i' f l'
  end.

Definition sched_step (ctx : UpsertContext.t) (c : config) (t : thread)
  : config :=
  match t with
  | the_writer =>
      let '(v, pc) := writer_step ctx (shared c) (writer c) in
      {| shared := v; writer := pc; readers := readers c |}
  | reader i =>
      {| shared := shared c; writer := writer c;
         readers := update_nth i (reader_step (shared c)) (readers c) |}
  end.

Definition run_schedule (ctx : UpsertContext.t) (sched : list thread)
           (c : config) : config :=
  fold_left (sched_step ctx) sched c.

(** A writer about to call [PutAtomic] and [n] readers about to call
    [GetAtomic] on slot [v]. *)
Definition start (v : Value.t) (n : nat) : config :=
  {| shared := v; writer := w_try_lock;
     readers := repeat r_load_before n |}.

(** What the readers that have returned were given. *)
Definition delivered (c : config) : list read_result :=
  flat_map (fun pc => match pc with
                      | r_return d => [d]
                      | _ => []
                      end) (readers c).

(** The pair held by slot [v], and the pair [ctx] writes. *)
Definition pair_of_slot (v : Value.t) : read_result :=
  ReadContext.deliver v value_buffer (Value.length_ v).

Definition pair_of_update (ctx : UpsertContext.t) : read_result :=
  {| read_bytes := firstn (Z.to_nat (UpsertContext.length_ ctx))
                          (UpsertContext.input_ ctx);
     read_length := UpsertContext.length_ ctx;
     read_status := Ok |}.

End Interleaving.

(** ** Several writers on one slot *)

Module Contention.

(** Threads that each run [PutAtomic] with a context of their own, at the
    program points of [Interleaving.writer_pc]. *)
Record config : Set := mk_config {
  shared : Value.t;
  writers : list (UpsertContext.t * Interleaving.writer_pc)
}.

(** Thread [i] performs its next access to the slot. *)
Definition step (c : config) (i : nat) : config :=
  match nth_error (writers c) i with
  | None => c
  | Some (ctx, pc) =>
      let '(v, pc') := Interleaving.writer_step ctx (shared c) pc in
      {| shared := v;
         writers :=
           Interleaving.update_nth i (fun _ => (ctx, pc')) (writers c) |}
  end.

Definition run_schedule (sched : list nat) (c : config) : config :=
  fold_left step sched c.

(** All threads about to call [PutAtomic] on slot [v]. *)
Definition start (v : Value.t) (ctxs : list UpsertContext.t) : config :=
  {| shared := v;
     writers := map (fun ctx => (ctx, Interleaving.w_try_lock)) ctxs |}.

(** Between a successful [try_lock] and the return of [unlock]. *)
Definition in_critical_section (pc : Interleaving.writer_pc) : bool :=
  match pc with
  | Interleaving.w_check | Interleaving.w_store_length
  | Interleaving.w_memcpy | Interleaving.w_unlock _ => true
  | Interleaving.w_try_lock | Interleaving.w_return _ => false
  end.

Definition has_succeeded (pc : Interleaving.writer_pc) : bool :=
  match pc with
  | Interleaving.w_return true => true
  | _ => false
  end.

Fixpoint count (p : Interleaving.writer_pc -> bool)
         (ws : list (UpsertContext.t * Interleaving.writer_pc)) : nat :=
  match ws with
  | [] => O
  | (_, pc) :: ws' => ((if p pc then 1 else 0) + count p ws')%nat
  end.

(** Threads inside the critical section, and threads whose [PutAtomic]
    has returned [true]. *)
Definition holders (c : config) : nat :=
  count in_critical_section (writers c).

Definition successes (c : config) : nat :=
  count has_succeeded (writers c).

(** What the lock word says about the threads: at most one is inside the
    critical section, and then the word is locked and not replaced; at most
    one has succeeded, and then the word is replaced. *)
Definition invariant (c : config) : Prop :=
  uint64 (Value.gen_lock_ (shared c))
  /\ (holders c <= 1)%nat
  /\ (holders c = 1%nat ->
      Value.is_locked (shared c) = true
      /\ Value.is_replaced (shared c) = false)
  /\ (successes c <= 1)%nat
  /\ (successes c = 1%nat -> Value.is_replaced (shared c) = true).

End Contention.

(** ** The slot and the payloads of the concrete scenario *)

Module Scenario.

Definition hello : list byte := list_byte_of_string "hello".

Definition too_long : list byte :=
  list_byte_of_string "this is too long for sixteen bytes".

Definition bang : list byte := list_byte_of_string "!".

(** A slot with room for 16 bytes, as the allocator zeroes it. *)
Definition slot16 : Value.t :=
  {| Value.gen_lock_ := AtomicGenLock.init;
     Value.size_ := Value.sizeof + 16;
     Value.length_ := 0;
     Value.buffer := repeat x00 16 |}.

Definition upsert (payload : list byte) : UpsertContext.t :=
  {| UpsertContext.key_ := 1;
     UpsertContext.input_ := payload;
     UpsertContext.length_ := Z.of_nat (List.length payload) |}.

(** The merge function that appends the modification to the old payload. *)
Definition append : rmw_callback :=
  fun mem current current_length modification modification_length dst =>
    (current_length + modification_length,
     firstn (Z.to_nat current_length) (mem current)
     ++ firstn (Z.to_nat modification_length) (mem modification)).

Definition rmw_bang : RmwContext.t :=
  {| RmwContext.key_ := 1;
     RmwContext.modification_ := bang;
     RmwContext.length_ := 1;
     RmwContext.cb_ := append |}.

(** A callback that reports the largest [uint64_t] and stores nothing. *)
Definition huge : rmw_callback :=
  fun _ _ _ _ _ _ => (2 ^ 64 - 1, []).

Definition rmw_huge : RmwContext.t :=
  {| RmwContext.key_ := 1;
     RmwContext.modification_ := bang;
     RmwContext.length_ := 1;
     RmwContext.cb_ := huge |}.

(** A callback whose size-only run reports the appended length, and
    whose run with an output pointer stores the appended payload and
    reports zero. *)
Definition fickle : rmw_callback :=
  fun mem current current_length modification modification_length dst =>
    (if ptr_eqb dst NULL then current_length + modification_length else 0,
     firstn (Z.to_nat current_length) (mem current)
     ++ firstn (Z.to_nat modification_length) (mem modification)).

Definition rmw_fickle : RmwContext.t :=
  {| RmwContext.key_ := 1;
     RmwContext.modification_ := bang;
     RmwContext.length_ := 1;
     RmwContext.cb_ := fickle |}.

(** The slot holding "hello", unlocked and not replaced. *)
Definition slot_hello : Value.t :=
  {| Value.gen_lock_ := 1;
     Value.size_ := Value.sizeof + 16;
     Value.length_ := 5;
     Value.buffer := hello ++ repeat x00 11 |}.

(** The value of an operation's result and the slot it leaves. *)
Definition outcome {A : Type} (r : option (A * world))
  : option (A * Value.t) :=
  match r with
  | Some (a, w) => Some (a, value w)
  | None => None
  end.

(** What a read of slot [v] by [GetAtomic] hands to its callback. *)
Definition read (fuel : nat) (v : Value.t) : option read_result :=
  match run (ReadContext.GetAtomic fuel) v with
  | Some (r, _) => Some r
  | None => None
  end.

End Scenario.

(** ** Counting the calls of the merge function *)

Definition is_cb (e : event) : bool :=
  match e with
  | ev_cb _ _ _ _ _ _ => true
  | _ => false
  end.

Definition cb_calls (lg : list event) : nat :=
  List.length (filter is_cb lg).

(** Every call of the merge function in [lg] comes after a [try_lock] that
    succeeded and before the [unlock] that follows it; [holding] says whether
    the lock is held where [lg] starts. *)
Fixpoint cb_under_lock (holding : bool) (lg : list event) : bool :=
  match lg with
  | [] => true
  | ev_try_lock success _ :: lg' => cb_under_lock (holding || success) lg'
  | ev_unlock _ :: lg' => cb_under_lock false lg'
  | ev_cb _ _ _ _ _ _ :: lg' => holding && cb_under_lock holding lg'
  | _ :: lg' => cb_under_lock holding lg'
  end.

(** ** The exported functions: dispatch on the kind of store *)

Module CApi.

(** [enum store_type] and the two members of the union [faster_t::obj]. *)
Inductive store_type : Set := NULL_DISK | FILESYSTEM_DISK.

Inductive member : Set := null_store | store.

(** The exported functions that [switch] on [faster_t->type]. *)
Inductive entry_point : Set :=
| faster_upsert
| faster_rmw
| faster_read
| faster_checkpoint
| faster_destroy
| faster_size
| faster_recover
| faster_complete_pending
| faster_start_session
| faster_continue_session
| faster_stop_session
| faster_refresh_session.

(** One [case] of a [switch]: its label, the member of the union its
    statement goes through, and whether control leaves the [switch] after it
    (a [break] or a [return]). *)
Record arm : Set := mk_arm {
  label : store_type;
  via : member;
  leaves : bool
}.

Definition store_type_eqb (a b : store_type) : bool :=
  match a, b with
  | NULL_DISK, NULL_DISK | FILESYSTEM_DISK, FILESYSTEM_DISK => true
  | _, _ => false
  end.

(** The statements a [switch] on [t] executes: from the first matching
    label on, until control leaves. *)
Fixpoint switch (entered : bool) (t : store_type) (arms : list arm)
  : list member :=
  match arms with
  | [] => []
  | a :: rest =>
      if entered || store_type_eqb (label a) t
      then via a :: (if leaves a then [] else switch true t rest)
      else switch false t rest
  end.

(** The [switch] of each function, as written. *)
Definition arms_of (f : entry_point) : list arm :=
  match f with
  | faster_upsert | faster_rmw | faster_read | faster_checkpoint
  | faster_size | faster_recover | faster_start_session
  | faster_continue_session =>
      [mk_arm NULL_DISK null_store true;
       mk_arm FILESYSTEM_DISK store true]
  | faster_destroy | faster_complete_pending | faster_stop_session
  | faster_refresh_session =>
      [mk_arm NULL_DISK null_store false;
       mk_arm FILESYSTEM_DISK store false]
  end.

(** The members of the union through which [f] reaches the store, in
    order, for a handle of kind [t]. *)
Definition store_calls (f : entry_point) (t : store_type) : list member :=
  switch false t (arms_of f).

(** The member that holds the store of a handle of kind [t]. *)
Definition member_of (t : store_type) : member :=
  match t with
  | NULL_DISK => null_store
  | FILESYSTEM_DISK => store
  end.

(** The session identifiers of [faster_recover].  [session_ids] is
    allocated with [malloc(sizeof(char* ))]; a first loop assigns a buffer of
    [session_len] bytes to cell [i] for every [i] below the number of
    identifiers; a second loop copies the identifiers into these buffers with
    [strncpy].  A store outside the allocated cells has no defined result. *)
Definition session_len : nat := 37.

Definition sizeof_char_ptr : Z := 8.

Definition cells_allocated : nat :=
  Z.to_nat (sizeof_char_ptr / sizeof_char_ptr).

(** [strncpy(dst, src, n)] for a [dst] of [n] bytes and a [src] without a
    zero byte: the first [n] bytes of [src], padded with zeros. *)
Definition strncpy (src : list byte) (n : nat) : list byte :=
  firstn n src ++ repeat x00 (n - List.length src).

(** [for (i = 0; i < ids_total; i++) session_ids[i] = malloc(session_len)],
    from index [i] on with [n] rounds left. *)
Fixpoint allocate_buffers (cells : list (option (list byte))) (i n : nat)
  : option (list (option (list byte))) :=
  match n with
  | O => Some cells
  | S n' =>
      if (i <? List.length cells)%nat
      then allocate_buffers
             (Interleaving.update_nth
                i (fun _ => Some (repeat x00 session_len)) cells)
             (S i) n'
      else None
  end.

(** [for (auto& id : _session_ids) strncpy(session_ids[counter++], ...)]. *)
Fixpoint copy_ids (cells : list (option (list byte))) (counter : nat)
         (ids : list (list byte)) : option (list (option (list byte))) :=
  match ids with
  | [] => Some cells
  | id :: ids' =>
      match nth_error cells counter with
      | Some (Some _) =>
          copy_ids
            (Interleaving.update_nth
               counter (fun _ => Some (strncpy id session_len)) cells)
            (S counter) ids'
      | _ => None
      end
  end.

Definition recover_session_ids (ids : list (list byte))
  : option (list (option (list byte))) :=
  match allocate_buffers (repeat None cells_allocated) 0
                         (List.length ids) with
  | Some cells => copy_ids cells 0 ids
  | None => None
  end.

End CApi.

(** * Properties *)

(** ** The generation-lock word *)

Ltac bits_to_arith :=
  repeat match goal with
  | H : Z.testbit _ _ = true |- _ => apply Z.testbit_true in H; [|lia]
  | H : Z.testbit _ _ = false |- _ => apply Z.testbit_false in H; [|lia]
  end.

Ltac word_arith := Z.div_mod_to_equations; lia.

(** Closed comparisons and equations, by evaluation. *)
Ltac by_evaluation :=
  repeat split; vm_compute;
  first [reflexivity | discriminate | intro; discriminate].

Lemma shiftl_1_62 : Z.shiftl 1 62 = 2 ^ 62.
Proof. reflexivity. Qed.

Lemma shiftl_1_63 : Z.shiftl 1 63 = 2 ^ 63.
Proof. reflexivity. Qed.

(** A word is the sum of its three fields, each at its position. *)
Lemma control_of_control (c : Z) :
  uint64 c -> GenLock.control_ (GenLock.of_control c) = c.
Proof.
  unfold uint64, GenLock.control_, GenLock.of_control; cbn [GenLock.gen_number GenLock.locked GenLock.replaced].
  intros H. rewrite Z.land_ones by lia.
  destruct (Z.testbit c 62) eqn:E1, (Z.testbit c 63) eqn:E2;
    bits_to_arith; word_arith.
Qed.

Lemma gen_number_range (c : Z) :
  0 <= GenLock.gen_number (GenLock.of_control c) < 2 ^ 62.
Proof.
  cbn [GenLock.gen_number GenLock.of_control].
  rewrite Z.land_ones by lia. apply Z.mod_pos_bound. lia.
Qed.

(** Reading the fields back from a word assembled from them. *)
Lemma of_control_fields (g : Z) (l r : bool) :
  0 <= g < 2 ^ 62 ->
  GenLock.of_control
    (g + (if l then 2 ^ 62 else 0) + (if r then 2 ^ 63 else 0))
  = GenLock.mk g l r.
Proof.
  intros Hg. unfold GenLock.of_control. f_equal.
  - rewrite Z.land_ones by lia. destruct l, r; word_arith.
  - destruct (Z.testbit _ 62) eqn:E; bits_to_arith; destruct l, r;
      try reflexivity; word_arith.
  - destruct (Z.testbit _ 63) eqn:E; bits_to_arith; destruct l, r;
      try reflexivity; word_arith.
Qed.

Lemma control_range (g : GenLock.t) : uint64 (GenLock.control_ g).
Proof.
  unfold uint64, GenLock.control_.
  destruct (GenLock.locked g), (GenLock.replaced g); word_arith.
Qed.

(** Every word in range is determined by its three fields. *)
Lemma word_fields (c : Z) :
  uint64 c ->
  exists (g : Z) (l r : bool), 0 <= g < 2 ^ 62 /\
    c = g + (if l then 2 ^ 62 else 0) + (if r then 2 ^ 63 else 0) /\
    GenLock.of_control c = GenLock.mk g l r.
Proof.
  intros H.
  exists (GenLock.gen_number (GenLock.of_control c)),
         (GenLock.locked (GenLock.of_control c)),
         (GenLock.replaced (GenLock.of_control c)).
  split; [apply gen_number_range|]. split.
  - pose proof (control_of_control c H) as E. unfold GenLock.control_ in E.
    rewrite Z.mod_small in E by apply gen_number_range. symmetry; exact E.
  - reflexivity.
Qed.

(** ** try_lock and unlock on a word given by its fields *)

Lemma try_lock_fields (g : Z) (l r : bool) :
  0 <= g < 2 ^ 62 ->
  AtomicGenLock.try_lock
    (g + (if l then 2 ^ 62 else 0) + (if r then 2 ^ 63 else 0))
  = if l || r
    then (false, r, g + (if l then 2 ^ 62 else 0) + (if r then 2 ^ 63 else 0))
    else (true, false, g + 2 ^ 62).
Proof.
  intros Hg. unfold AtomicGenLock.try_lock.
  rewrite (of_control_fields g l r Hg).
  unfold GenLock.set_locked, GenLock.set_replaced, GenLock.control_.
  cbn [GenLock.gen_number GenLock.locked GenLock.replaced].
  rewrite (Z.mod_small g) by lia.
  replace (g + 0 + 0) with (g + (if false then 2 ^ 62 else 0)
                              + (if false then 2 ^ 63 else 0)) by lia.
  rewrite (of_control_fields g false false Hg).
  cbn [GenLock.gen_number GenLock.locked GenLock.replaced].
  rewrite (Z.mod_small g) by lia.
  unfold AtomicGenLock.compare_exchange_strong.
  destruct l, r; cbn [orb].
  - replace (_ =? _) with false by (symmetry; apply Z.eqb_neq; lia).
    rewrite (of_control_fields g true true Hg). reflexivity.
  - replace (_ =? _) with false by (symmetry; apply Z.eqb_neq; lia).
    rewrite (of_control_fields g true false Hg). reflexivity.
  - replace (_ =? _) with false by (symmetry; apply Z.eqb_neq; lia).
    rewrite (of_control_fields g false true Hg). reflexivity.
  - replace (_ =? _) with true by (symmetry; apply Z.eqb_eq; lia).
    f_equal. lia.
Qed.

Lemma unlock_true_fields (g : Z) (r : bool) :
  0 <= g < 2 ^ 62 ->
  AtomicGenLock.unlock true (g + 2 ^ 62 + (if r then 2 ^ 63 else 0))
  = g + 1 + (if r then 2 ^ 63 else 0).
Proof.
  intros Hg. unfold AtomicGenLock.unlock, AtomicGenLock.fetch_sub, wrap64.
  rewrite shiftl_1_62. destruct r; word_arith.
Qed.

Lemma unlock_false_fields (g : Z) (r : bool) :
  0 <= g < 2 ^ 62 ->
  AtomicGenLock.unlock false (g + 2 ^ 62 + (if r then 2 ^ 63 else 0))
  = g + 1 + (if r then 0 else 2 ^ 63).
Proof.
  intros Hg. unfold AtomicGenLock.unlock, AtomicGenLock.fetch_add, wrap64.
  rewrite shiftl_1_62, shiftl_1_63. destruct r; word_arith.
Qed.

Lemma unlock_range (b : bool) (c : Z) : uint64 (AtomicGenLock.unlock b c).
Proof.
  unfold uint64, AtomicGenLock.unlock, AtomicGenLock.fetch_add,
    AtomicGenLock.fetch_sub, wrap64.
  destruct b; apply Z.mod_pos_bound; lia.
Qed.

Lemma try_lock_range (c : Z) :
  uint64 c -> uint64 (snd (AtomicGenLock.try_lock c)).
Proof.
  intros H. destruct (word_fields c H) as (g & l & r & Hg & -> & _).
  rewrite try_lock_fields by exact Hg.
  unfold uint64. destruct l, r; cbn [orb snd]; lia.
Qed.

(** Reading the fields of [g + 1], which may carry into the lock bit. *)
Lemma of_control_succ (g : Z) (r : bool) :
  0 <= g < 2 ^ 62 ->
  GenLock.of_control (g + 1 + (if r then 2 ^ 63 else 0))
  = GenLock.mk ((g + 1) mod 2 ^ 62) (g + 1 =? 2 ^ 62) r.
Proof.
  intros Hg. destruct (Z.eqb_spec (g + 1) (2 ^ 62)) as [E|E].
  - replace (g + 1 + (if r then 2 ^ 63 else 0))
      with (0 + (if true then 2 ^ 62 else 0) + (if r then 2 ^ 63 else 0))
      by lia.
    rewrite (of_control_fields 0 true r) by lia. rewrite E. reflexivity.
  - replace (g + 1 + (if r then 2 ^ 63 else 0))
      with ((g + 1) + (if false then 2 ^ 62 else 0)
            + (if r then 2 ^ 63 else 0)) by lia.
    rewrite (of_control_fields (g + 1) false r) by lia.
    rewrite Z.mod_small by lia. reflexivity.
Qed.

(** [try_lock] in terms of the two flags of the word it finds. *)
Lemma try_lock_spec (c : Z) :
  uint64 c ->
  AtomicGenLock.try_lock c
  = if GenLock.locked (GenLock.of_control c)
       || GenLock.replaced (GenLock.of_control c)
    then (false, GenLock.replaced (GenLock.of_control c), c)
    else (true, false, c + 2 ^ 62).
Proof.
  intros H. destruct (word_fields c H) as (g & l & r & Hg & Hc & Hf).
  rewrite Hf. cbn [GenLock.locked GenLock.replaced].
  rewrite Hc at 1. rewrite try_lock_fields by exact Hg.
  destruct l, r; cbn [orb]; rewrite Hc; try reflexivity.
  f_equal. lia.
Qed.

(** The word a successful [try_lock] leaves behind. *)
Lemma of_control_locked (c : Z) :
  uint64 c ->
  GenLock.locked (GenLock.of_control c) = false ->
  GenLock.replaced (GenLock.of_control c) = false ->
  GenLock.of_control (c + 2 ^ 62)
  = GenLock.mk (GenLock.gen_number (GenLock.of_control c)) true false
  /\ c + 2 ^ 62
     = GenLock.gen_number (GenLock.of_control c) + 2 ^ 62
       + (if false then 2 ^ 63 else 0).
Proof.
  intros H Hl Hr. destruct (word_fields c H) as (g & l & r & Hg & Hc & Hf).
  rewrite Hf in *. cbn [GenLock.locked GenLock.replaced GenLock.gen_number] in *.
  subst l r. split; [|lia].
  replace (c + 2 ^ 62)
    with (g + (if true then 2 ^ 62 else 0) + (if false then 2 ^ 63 else 0))
    by lia.
  exact (of_control_fields g true false Hg).
Qed.

(** ** The acquisition loop *)

Lemma set_gen_lock_same (v : Value.t) :
  Value.set_gen_lock v (Value.gen_lock_ v) = v.
Proof. destruct v; reflexivity. Qed.

Lemma acquire_free (fuel : nat) (v : Value.t) (lg : list event) :
  uint64 (Value.gen_lock_ v) ->
  Value.is_locked v = false -> Value.is_replaced v = false ->
  acquire (S fuel) {| value := v; log := lg |}
  = Some (false,
          {| value := Value.set_gen_lock v (Value.gen_lock_ v + 2 ^ 62);
             log := lg ++ [ev_try_lock true false] |}).
Proof.
  unfold Value.is_locked, Value.is_replaced, AtomicGenLock.load.
  intros H Hl Hr.
  cbn [acquire]. unfold bind at 1. unfold gen_lock_try_lock, bind, get_value.
  cbn [value log]. rewrite try_lock_spec by exact H. rewrite Hl, Hr.
  reflexivity.
Qed.

Lemma acquire_replaced (fuel : nat) (v : Value.t) (lg : list event) :
  uint64 (Value.gen_lock_ v) ->
  Value.is_replaced v = true ->
  acquire (S fuel) {| value := v; log := lg |}
  = Some (true, {| value := v; log := lg ++ [ev_try_lock false true] |}).
Proof.
  unfold Value.is_replaced, AtomicGenLock.load.
  intros H Hr.
  cbn [acquire]. unfold bind at 1. unfold gen_lock_try_lock, bind, get_value.
  cbn [value log]. rewrite try_lock_spec by exact H. rewrite Hr, orb_true_r.
  unfold put_value, emit, ret. cbn [value log fst snd negb andb].
  rewrite set_gen_lock_same. reflexivity.
Qed.

(** A slot that stays locked by somebody else is never acquired. *)
Lemma acquire_spins (fuel : nat) (v : Value.t) (lg : list event) :
  uint64 (Value.gen_lock_ v) ->
  Value.is_locked v = true -> Value.is_replaced v = false ->
  acquire fuel {| value := v; log := lg |} = None.
Proof.
  unfold Value.is_locked, Value.is_replaced, AtomicGenLock.load.
  intros H Hl Hr. revert lg.
  induction fuel as [|fuel IH]; intros lg; [reflexivity|].
  cbn [acquire]. unfold bind at 1. unfold gen_lock_try_lock, bind, get_value.
  cbn [value log]. rewrite try_lock_spec by exact H. rewrite Hl, Hr.
  unfold put_value, emit, ret. cbn [value log fst snd negb andb orb].
  rewrite set_gen_lock_same. apply IH.
Qed.

(** ** The generation lock: try_lock and unlock *)

(** C2.  A single call to [try_lock], for every state of the lock word: if
    the word is locked and not replaced the call returns [false], reports
    [replaced = false] and leaves the word as it is; if the word is replaced
    the call returns [false], reports [replaced = true] and leaves the word
    as it is; otherwise the call returns [true], and the word it leaves is
    the one a single compare-and-swap against the observed word installs:
    locked, not replaced, with the same generation number. *)
Theorem try_lock_single_call (c : Z) :
  uint64 c ->
  let g := AtomicGenLock.load c in
  (GenLock.locked g = true -> GenLock.replaced g = false ->
   AtomicGenLock.try_lock c = (false, false, c)) /\
  (GenLock.replaced g = true ->
   AtomicGenLock.try_lock c = (false, true, c)) /\
  (GenLock.locked g = false -> GenLock.replaced g = false ->
   exists desired : Z,
     AtomicGenLock.try_lock c = (true, false, desired) /\
     AtomicGenLock.compare_exchange_strong c c desired = (true, desired, c) /\
     AtomicGenLock.load desired
     = GenLock.mk (GenLock.gen_number g) true false).
Proof.
  intros H g. subst g. unfold AtomicGenLock.load.
  rewrite (try_lock_spec c H). repeat split.
  - intros Hl Hr. rewrite Hl, Hr. reflexivity.
  - intros Hr. rewrite Hr, orb_true_r. reflexivity.
  - intros Hl Hr. exists (c + 2 ^ 62). rewrite Hl, Hr. cbn [orb].
    split; [reflexivity|]. split.
    + unfold AtomicGenLock.compare_exchange_strong. rewrite Z.eqb_refl.
      reflexivity.
    + apply (of_control_locked c H Hl Hr).
Qed.

Lemma try_lock_single_call_witness :
  uint64 7 /\
  exists desired : Z,
    AtomicGenLock.try_lock 7 = (true, false, desired) /\
    AtomicGenLock.compare_exchange_strong 7 7 desired = (true, desired, 7) /\
    AtomicGenLock.load desired = GenLock.mk 7 true false.
Proof.
  assert (H : uint64 7) by (unfold uint64; lia).
  split; [exact H|].
  apply (try_lock_single_call 7 H); reflexivity.
Defined.

(** The word [unlock] leaves when called on a locked word. *)
Lemma unlock_locked (c : Z) (b : bool) :
  uint64 c ->
  GenLock.locked (AtomicGenLock.load c) = true ->
  AtomicGenLock.load (AtomicGenLock.unlock b c)
  = let g := AtomicGenLock.load c in
    GenLock.mk ((GenLock.gen_number g + 1) mod 2 ^ 62)
               (GenLock.gen_number g + 1 =? 2 ^ 62)
               (if b then GenLock.replaced g else negb (GenLock.replaced g)).
Proof.
  unfold AtomicGenLock.load. intros H Hl.
  destruct (word_fields c H) as (g & l & r & Hg & Hc & Hf).
  rewrite Hf in *. cbn [GenLock.locked GenLock.replaced GenLock.gen_number] in *.
  subst l. rewrite Hc. destruct b.
  - rewrite unlock_true_fields by exact Hg. apply of_control_succ; exact Hg.
  - rewrite unlock_false_fields by exact Hg.
    replace (if r then 0 else 2 ^ 63) with (if negb r then 2 ^ 63 else 0)
      by (destruct r; reflexivity).
    apply of_control_succ; exact Hg.
Qed.

(** C1.  On every locked, unreplaced word whose generation number is below
    the largest one, [unlock] clears the locked bit and adds one to the
    generation number, and it leaves the replaced bit set exactly when its
    argument is [false]: the two effects are attached to the opposite
    argument values. *)
Theorem unlock_effects_swapped (c : Z) (b : bool) :
  uint64 c ->
  GenLock.locked (AtomicGenLock.load c) = true ->
  GenLock.replaced (AtomicGenLock.load c) = false ->
  GenLock.gen_number (AtomicGenLock.load c) < 2 ^ 62 - 1 ->
  AtomicGenLock.load (AtomicGenLock.unlock b c)
  = GenLock.mk (GenLock.gen_number (AtomicGenLock.load c) + 1) false (negb b).
Proof.
  intros H Hl Hr Hg. rewrite (unlock_locked c b H Hl). cbv zeta.
  rewrite Hr. pose proof (gen_number_range c) as Hrange.
  unfold AtomicGenLock.load in *.
  rewrite Z.mod_small by lia.
  replace (_ =? _) with false by (symmetry; apply Z.eqb_neq; lia).
  destruct b; reflexivity.
Qed.

Lemma unlock_effects_swapped_witness :
  AtomicGenLock.load (AtomicGenLock.unlock false (2 ^ 62))
  = GenLock.mk 1 false true
  /\ AtomicGenLock.load (AtomicGenLock.unlock true (2 ^ 62))
     = GenLock.mk 1 false false.
Proof.
  assert (H : uint64 (2 ^ 62)) by (unfold uint64; lia).
  split.
  - apply (unlock_effects_swapped (2 ^ 62) false H); reflexivity.
  - apply (unlock_effects_swapped (2 ^ 62) true H); reflexivity.
Defined.

(** C8.  On every locked word, [unlock] with either argument adds exactly
    one to the generation number modulo [2^62], the width of the field; below
    the largest generation number the result is the successor, so the number
    grows by one. *)
Theorem unlock_increments_generation (c : Z) (b : bool) :
  uint64 c ->
  GenLock.locked (AtomicGenLock.load c) = true ->
  GenLock.gen_number (AtomicGenLock.load (AtomicGenLock.unlock b c))
  = (GenLock.gen_number (AtomicGenLock.load c) + 1) mod 2 ^ 62
  /\ (GenLock.gen_number (AtomicGenLock.load c) < 2 ^ 62 - 1 ->
      GenLock.gen_number (AtomicGenLock.load (AtomicGenLock.unlock b c))
      = GenLock.gen_number (AtomicGenLock.load c) + 1).
Proof.
  intros H Hl. rewrite (unlock_locked c b H Hl). cbv zeta.
  cbn [GenLock.gen_number]. split; [reflexivity|].
  intros Hg. pose proof (gen_number_range c) as Hrange.
  unfold AtomicGenLock.load in *. apply Z.mod_small. lia.
Qed.

Lemma unlock_increments_generation_witness :
  GenLock.gen_number
    (AtomicGenLock.load (AtomicGenLock.unlock true (2 ^ 62 + 41)))
  = 42 mod 2 ^ 62
  /\ GenLock.gen_number
       (AtomicGenLock.load (AtomicGenLock.unlock false (2 ^ 62 + 41)))
     = 42 mod 2 ^ 62.
Proof.
  assert (H : uint64 (2 ^ 62 + 41)) by (unfold uint64; lia).
  split.
  - exact (proj1 (unlock_increments_generation (2 ^ 62 + 41) true H
                                              eq_refl)).
  - exact (proj1 (unlock_increments_generation (2 ^ 62 + 41) false H
                                              eq_refl)).
Defined.

(** ** PutAtomic and GetAtomic *)

Ltac run_monad :=
  cbv [bind ret get_value put_value emit store_length memcpy_to_buffer
       gen_lock_unlock gen_lock_load];
  cbn [value log fst snd app
       Value.gen_lock_ Value.size_ Value.length_ Value.buffer
       Value.set_gen_lock Value.set_length Value.set_buffer].

(** [PutAtomic] on a slot nobody holds: the first attempt acquires it, and
    the size test selects one of the two exits. *)
Lemma PutAtomic_free (ctx : UpsertContext.t) (fuel : nat) (v : Value.t) :
  uint64 (Value.gen_lock_ v) ->
  Value.is_locked v = false -> Value.is_replaced v = false ->
  run (UpsertContext.PutAtomic ctx (S fuel)) v
  = if Value.size_ v <? wrap64 (Value.sizeof + UpsertContext.length_ ctx)
    then Some (false,
               {| value :=
                    Value.set_gen_lock
                      v (AtomicGenLock.unlock true
                           (Value.gen_lock_ v + 2 ^ 62));
                  log := [ev_try_lock true false; ev_unlock true] |})
    else Some (true,
               {| value :=
                    {| Value.gen_lock_ :=
                         AtomicGenLock.unlock false
                           (Value.gen_lock_ v + 2 ^ 62);
                       Value.size_ := Value.size_ v;
                       Value.length_ := UpsertContext.length_ ctx;
                       Value.buffer :=
                         memcpy (Value.buffer v) (UpsertContext.input_ ctx)
                                (UpsertContext.length_ ctx) |};
                  log := [ev_try_lock true false;
                          ev_store_length (UpsertContext.length_ ctx);
                          ev_memcpy (UpsertContext.length_ ctx);
                          ev_unlock false] |}).
Proof.
  intros H Hl Hr. unfold run, UpsertContext.PutAtomic.
  unfold bind at 1. rewrite (acquire_free fuel v [] H Hl Hr).
  run_monad.
  destruct (Value.size_ v <? _); reflexivity.
Qed.

(** [PutAtomic] on a retired slot gives up at its first attempt and leaves
    the slot as it is. *)
Lemma PutAtomic_replaced (ctx : UpsertContext.t) (fuel : nat) (v : Value.t) :
  uint64 (Value.gen_lock_ v) ->
  Value.is_replaced v = true ->
  run (UpsertContext.PutAtomic ctx (S fuel)) v
  = Some (false, {| value := v; log := [ev_try_lock false true] |}).
Proof.
  intros H Hr. unfold run, UpsertContext.PutAtomic.
  unfold bind at 1. rewrite (acquire_replaced fuel v [] H Hr). reflexivity.
Qed.

(** [GetAtomic] with nobody else at work returns after one round with what
    [Get] returns, and changes nothing. *)
Lemma GetAtomic_alone (fuel : nat) (w : world) :
  ReadContext.GetAtomic (S fuel) w
  = Some (ReadContext.deliver (value w) value_buffer
                              (Value.length_ (value w)), w).
Proof.
  unfold ReadContext.GetAtomic. cbn [ReadContext.GetAtomic_loop].
  run_monad. rewrite Z.eqb_refl. reflexivity.
Qed.

Lemma firstn_memcpy (dst src : list byte) :
  firstn (Z.to_nat (Z.of_nat (List.length src)))
         (memcpy dst src (Z.of_nat (List.length src)))
  = src.
Proof.
  unfold memcpy. rewrite Nat2Z.id. rewrite firstn_all.
  rewrite firstn_app, firstn_all, Nat.sub_diag. cbn [firstn].
  apply app_nil_r.
Qed.

Lemma length_memcpy (dst src : list byte) (n : Z) :
  (Z.to_nat n <= List.length src)%nat ->
  (Z.to_nat n <= List.length dst)%nat ->
  List.length (memcpy dst src n) = List.length dst.
Proof.
  intros Hs Hd. unfold memcpy.
  rewrite length_app, firstn_length_le, length_skipn by exact Hs. lia.
Qed.

(** C4.  For every unlocked, unreplaced slot and every payload no longer
    than the capacity of the slot, [PutAtomic] of the payload returns [true],
    and [GetAtomic] run next, with no writer at work, hands its callback
    exactly the bytes and the length written. *)
Theorem PutAtomic_GetAtomic_roundtrip
        (v : Value.t) (key : Z) (payload : list byte) (fuel fuel' : nat) :
  Value.well_formed v ->
  Value.is_locked v = false -> Value.is_replaced v = false ->
  Z.of_nat (List.length payload) <= Value.capacity v ->
  exists w : world,
    run (UpsertContext.PutAtomic
           (UpsertContext.mk key payload (Z.of_nat (List.length payload)))
           (S fuel)) v
    = Some (true, w)
    /\ ReadContext.GetAtomic (S fuel') w
       = Some (mk_read payload (Z.of_nat (List.length payload)) Ok, w).
Proof.
  intros (Hc & Hs & Hlen) Hl Hr Hcap.
  rewrite (PutAtomic_free _ fuel v Hc Hl Hr).
  cbn [UpsertContext.length_ UpsertContext.input_].
  unfold uint64, Value.capacity, Value.sizeof in *.
  replace (Value.size_ v <? wrap64 (24 + Z.of_nat (List.length payload)))
    with false.
  2:{ symmetry. apply Z.ltb_ge. unfold wrap64. rewrite Z.mod_small; lia. }
  eexists. split; [reflexivity|].
  rewrite GetAtomic_alone. cbn [value Value.length_ Value.buffer].
  unfold ReadContext.deliver. cbn [Value.buffer].
  rewrite firstn_memcpy. reflexivity.
Qed.

Lemma PutAtomic_GetAtomic_roundtrip_witness :
  exists w : world,
    run (UpsertContext.PutAtomic
           (UpsertContext.mk 1 Scenario.hello
                             (Z.of_nat (List.length Scenario.hello))) 1)
        Scenario.slot16
    = Some (true, w)
    /\ ReadContext.GetAtomic 1 w
       = Some (mk_read Scenario.hello
                       (Z.of_nat (List.length Scenario.hello)) Ok, w).
Proof.
  apply (PutAtomic_GetAtomic_roundtrip Scenario.slot16 1 Scenario.hello 0 0).
  - by_evaluation.
  - reflexivity.
  - reflexivity.
  - by_evaluation.
Defined.

(** C5.  For every unlocked, unreplaced slot and every payload longer than
    the capacity of the slot (a payload that leaves room for a header in the
    64-bit address space), [PutAtomic] returns [false], it performs no store
    into the slot between acquiring and releasing the lock, the length field
    and the buffer are what they were before the call, and a read that
    follows gives the pair the slot held before the call. *)
Theorem PutAtomic_over_capacity
        (v : Value.t) (key : Z) (payload : list byte) (fuel fuel' : nat) :
  Value.well_formed v ->
  Value.is_locked v = false -> Value.is_replaced v = false ->
  Value.capacity v < Z.of_nat (List.length payload) ->
  addressable Value.sizeof payload ->
  exists w : world,
    run (UpsertContext.PutAtomic
           (UpsertContext.mk key payload (Z.of_nat (List.length payload)))
           (S fuel)) v
    = Some (false, w)
    /\ log w = [ev_try_lock true false; ev_unlock true]
    /\ Value.length_ (value w) = Value.length_ v
    /\ Value.buffer (value w) = Value.buffer v
    /\ Value.size_ (value w) = Value.size_ v
    /\ ReadContext.GetAtomic (S fuel') w
       = Some (ReadContext.deliver v value_buffer (Value.length_ v), w).
Proof.
  intros (Hc & Hs & Hlen) Hl Hr Hcap Hfit.
  rewrite (PutAtomic_free _ fuel v Hc Hl Hr).
  cbn [UpsertContext.length_ UpsertContext.input_].
  unfold addressable, uint64, Value.capacity, Value.sizeof in *.
  replace (Value.size_ v <? wrap64 (24 + Z.of_nat (List.length payload)))
    with true.
  2:{ symmetry. apply Z.ltb_lt. unfold wrap64. rewrite Z.mod_small; lia. }
  eexists. split; [reflexivity|]. rewrite GetAtomic_alone. repeat split.
Qed.

Lemma PutAtomic_over_capacity_witness :
  exists w : world,
    run (UpsertContext.PutAtomic
           (UpsertContext.mk 1 Scenario.too_long
                             (Z.of_nat (List.length Scenario.too_long))) 1)
        Scenario.slot16
    = Some (false, w)
    /\ log w = [ev_try_lock true false; ev_unlock true]
    /\ Value.length_ (value w) = Value.length_ Scenario.slot16
    /\ Value.buffer (value w) = Value.buffer Scenario.slot16
    /\ Value.size_ (value w) = Value.size_ Scenario.slot16
    /\ ReadContext.GetAtomic 1 w
       = Some (ReadContext.deliver Scenario.slot16 value_buffer
                                   (Value.length_ Scenario.slot16), w).
Proof.
  apply (PutAtomic_over_capacity Scenario.slot16 1 Scenario.too_long 0 0).
  - by_evaluation.
  - reflexivity.
  - reflexivity.
  - by_evaluation.
  - by_evaluation.
Defined.

(** [PutAtomic] keeps a slot a slot: the size field is never stored into,
    the buffer keeps its extent and the payload stays within it. *)
Lemma PutAtomic_keeps_slot
      (v : Value.t) (key : Z) (payload : list byte) (fuel : nat)
      (r : bool) (w : world) :
  Value.well_formed v -> Value.allocated v ->
  Value.is_locked v = false -> Value.is_replaced v = false ->
  addressable Value.sizeof payload ->
  run (UpsertContext.PutAtomic
         (UpsertContext.mk key payload (Z.of_nat (List.length payload)))
         (S fuel)) v
  = Some (r, w) ->
  Value.well_formed (value w) /\ Value.allocated (value w)
  /\ Value.size_ (value w) = Value.size_ v.
Proof.
  intros (Hc & Hs & Hlen) (Ha & Hbuf & Hfits) Hl Hr Hfit E.
  rewrite (PutAtomic_free _ fuel v Hc Hl Hr) in E.
  cbn [UpsertContext.length_ UpsertContext.input_] in E.
  unfold addressable, uint64, Value.capacity, Value.sizeof in *.
  unfold wrap64 in E. rewrite Z.mod_small in E by lia.
  destruct (Z.ltb_spec (Value.size_ v)
                       (24 + Z.of_nat (List.length payload))) as [Hlt | Hge];
    injection E as <- <-.
  - unfold Value.well_formed, Value.allocated, Value.capacity, Value.sizeof.
    cbn [value Value.set_gen_lock Value.gen_lock_ Value.size_ Value.length_
         Value.buffer].
    pose proof (unlock_range true (Value.gen_lock_ v + 2 ^ 62)) as U.
    unfold uint64 in *. repeat split; try lia; apply U.
  - unfold Value.well_formed, Value.allocated, Value.capacity, Value.sizeof.
    cbn [value Value.gen_lock_ Value.size_ Value.length_ Value.buffer].
    pose proof (unlock_range false (Value.gen_lock_ v + 2 ^ 62)) as U.
    rewrite length_memcpy by (rewrite Nat2Z.id; lia).
    unfold uint64 in *. repeat split; try lia; apply U.
Qed.

(** ** RmwAtomic *)

Section RmwAtomic_equation.

Variable ctx : RmwContext.t.
Variable v : Value.t.

Hypothesis word_in_range : uint64 (Value.gen_lock_ v).
Hypothesis unlocked : Value.is_locked v = false.
Hypothesis unreplaced : Value.is_replaced v = false.

Lemma RmwAtomic_free (fuel : nat) :
  run (RmwContext.RmwAtomic ctx (S fuel)) v
  = if Value.size_ v <? wrap64 (Value.sizeof + fst (dry_run ctx v))
    then Some (false,
               {| value :=
                    Value.set_gen_lock
                      v (AtomicGenLock.unlock true
                           (Value.gen_lock_ v + 2 ^ 62));
                  log := [ev_try_lock true false;
                          ev_cb value_buffer (Value.length_ v)
                                modification_ptr (RmwContext.length_ ctx)
                                NULL (fst (dry_run ctx v));
                          ev_unlock true] |})
    else Some (true,
               {| value :=
                    {| Value.gen_lock_ :=
                         AtomicGenLock.unlock false
                           (Value.gen_lock_ v + 2 ^ 62);
                       Value.size_ := Value.size_ v;
                       Value.length_ := fst (dry_run ctx v);
                       Value.buffer :=
                         snd (real_run ctx v)
                         ++ skipn (List.length (snd (real_run ctx v)))
                                  (Value.buffer v) |};
                  log := [ev_try_lock true false;
                          ev_cb value_buffer (Value.length_ v)
                                modification_ptr (RmwContext.length_ ctx)
                                NULL (fst (dry_run ctx v));
                          ev_cb value_buffer (Value.length_ v)
                                modification_ptr (RmwContext.length_ ctx)
                                value_buffer (fst (real_run ctx v));
                          ev_store_length (fst (dry_run ctx v));
                          ev_unlock false] |}).
Proof.
  unfold run, RmwContext.RmwAtomic.
  unfold bind at 1.
  rewrite (acquire_free fuel v [] word_in_range unlocked unreplaced).
  unfold RmwContext.call_cb. run_monad.
  change (RmwContext.deref ctx
            (Value.set_gen_lock v (Value.gen_lock_ v + 2 ^ 62)))
    with (RmwContext.deref ctx v).
  fold (dry_run ctx v).
  destruct (dry_run ctx v) as [new_length out]. run_monad.
  cbn [RmwContext.store_through]. run_monad.
  destruct (Value.size_ v <? _); [reflexivity|].
  unfold bind. cbn [value log Value.length_ Value.set_gen_lock].
  change (RmwContext.deref ctx
            (Value.set_gen_lock v (Value.gen_lock_ v + 2 ^ 62)))
    with (RmwContext.deref ctx v).
  fold (real_run ctx v).
  destruct (real_run ctx v) as [result written]. run_monad.
  cbn [RmwContext.store_through]. run_monad. reflexivity.
Qed.

End RmwAtomic_equation.

(** C6 (as amended).  For every unlocked, unreplaced slot and every merge
    function whose size-only run reports a length [n] with
    [sizeof(Value) + n] below [2^64]: [RmwAtomic] first calls the merge
    function with a null output pointer; if the capacity of the slot is less
    than [n] it then calls [unlock(true)] and returns [false], with length and
    buffer unchanged; otherwise it calls the merge function with the buffer of
    the slot as output, stores [n] into the length field, calls
    [unlock(false)] and returns [true].  The size field is the same in both
    cases. *)
Theorem RmwAtomic_on_free_slot
        (ctx : RmwContext.t) (v : Value.t) (fuel : nat) :
  Value.well_formed v ->
  Value.is_locked v = false -> Value.is_replaced v = false ->
  0 <= fst (dry_run ctx v) ->
  Value.sizeof + fst (dry_run ctx v) < 2 ^ 64 ->
  let n := fst (dry_run ctx v) in
  let cb_size_only :=
    ev_cb value_buffer (Value.length_ v) modification_ptr
          (RmwContext.length_ ctx) NULL n in
  let cb_into_buffer :=
    ev_cb value_buffer (Value.length_ v) modification_ptr
          (RmwContext.length_ ctx) value_buffer (fst (real_run ctx v)) in
  let locked_word := Value.gen_lock_ v + 2 ^ 62 in
  (Value.capacity v < n ->
   run (RmwContext.RmwAtomic ctx (S fuel)) v
   = Some (false,
           {| value :=
                Value.mk (AtomicGenLock.unlock true locked_word)
                         (Value.size_ v) (Value.length_ v) (Value.buffer v);
              log := [ev_try_lock true false; cb_size_only;
                      ev_unlock true] |}))
  /\
  (n <= Value.capacity v ->
   run (RmwContext.RmwAtomic ctx (S fuel)) v
   = Some (true,
           {| value :=
                Value.mk (AtomicGenLock.unlock false locked_word)
                         (Value.size_ v) n
                         (snd (real_run ctx v)
                          ++ skipn (List.length (snd (real_run ctx v)))
                                   (Value.buffer v));
              log := [ev_try_lock true false; cb_size_only; cb_into_buffer;
                      ev_store_length n; ev_unlock false] |})).
Proof.
  intros (Hc & Hs & Hlen) Hl Hr Hn Hfit n cb1 cb2 locked_word.
  subst n cb1 cb2 locked_word.
  rewrite (RmwAtomic_free ctx v Hc Hl Hr fuel).
  unfold uint64, Value.capacity, Value.sizeof, wrap64 in *.
  rewrite Z.mod_small by lia.
  split; intros Hcap.
  - replace (_ <? _) with true by (symmetry; apply Z.ltb_lt; lia).
    reflexivity.
  - replace (_ <? _) with false by (symmetry; apply Z.ltb_ge; lia).
    reflexivity.
Qed.

Lemma RmwAtomic_on_free_slot_witness :
  Scenario.outcome
    (run (RmwContext.RmwAtomic Scenario.rmw_bang 1) Scenario.slot_hello)
  = Some (true,
          Value.mk (2 ^ 63 + 2) (Value.sizeof + 16) 6
                   (list_byte_of_string "hello!" ++ repeat x00 10)).
Proof.
  assert (E := proj2 (RmwAtomic_on_free_slot
                        Scenario.rmw_bang Scenario.slot_hello 0
                        ltac:(by_evaluation) eq_refl eq_refl
                        ltac:(by_evaluation) ltac:(by_evaluation))
                     ltac:(by_evaluation)).
  rewrite E. vm_compute. reflexivity.
Defined.

(** C6 (as stated) fails: for the merge function that reports the length
    [2^64 - 1], the capacity 16 of the slot is less than the computed length,
    and yet [RmwAtomic] does not return [false]: it calls the merge function
    again with the buffer as output, stores [2^64 - 1] into the length field
    and returns [true]. *)
Lemma RmwAtomic_length_overflow :
  Value.capacity Scenario.slot_hello
  < fst (dry_run Scenario.rmw_huge Scenario.slot_hello)
  /\ run (RmwContext.RmwAtomic Scenario.rmw_huge 1) Scenario.slot_hello
     = Some (true,
             {| value :=
                  Value.mk (2 ^ 63 + 2) (Value.sizeof + 16) (2 ^ 64 - 1)
                           (Value.buffer Scenario.slot_hello);
                log := [ev_try_lock true false;
                        ev_cb value_buffer 5 modification_ptr 1 NULL
                              (2 ^ 64 - 1);
                        ev_cb value_buffer 5 modification_ptr 1 value_buffer
                              (2 ^ 64 - 1);
                        ev_store_length (2 ^ 64 - 1);
                        ev_unlock false] |}).
Proof.
  split; [by_evaluation|]. vm_compute. reflexivity.
Qed.

(** C10.  On the committing path of [RmwAtomic] (an unlocked, unreplaced
    slot that passes the size test), the second call of the merge function
    is given the buffer of the slot both as old payload and as output, with
    the length the slot held before the merge; the length field is stored
    after that call, and the value stored is the result of the size-only
    call, whatever the second call returns. *)
Theorem RmwAtomic_commit_calls
        (ctx : RmwContext.t) (v : Value.t) (fuel : nat) :
  uint64 (Value.gen_lock_ v) ->
  Value.is_locked v = false -> Value.is_replaced v = false ->
  (Value.size_ v <? wrap64 (Value.sizeof + fst (dry_run ctx v))) = false ->
  exists w : world,
    run (RmwContext.RmwAtomic ctx (S fuel)) v = Some (true, w)
    /\ log w
       = [ev_try_lock true false;
          ev_cb value_buffer (Value.length_ v) modification_ptr
                (RmwContext.length_ ctx) NULL (fst (dry_run ctx v));
          ev_cb value_buffer (Value.length_ v) modification_ptr
                (RmwContext.length_ ctx) value_buffer
                (fst (real_run ctx v));
          ev_store_length (fst (dry_run ctx v));
          ev_unlock false]
    /\ Value.length_ (value w) = fst (dry_run ctx v)
    /\ Value.buffer (value w)
       = snd (real_run ctx v)
         ++ skipn (List.length (snd (real_run ctx v))) (Value.buffer v).
Proof.
  intros Hc Hl Hr Htest.
  rewrite (RmwAtomic_free ctx v Hc Hl Hr fuel), Htest.
  eexists. split; [reflexivity|]. repeat split.
Qed.

Lemma RmwAtomic_commit_calls_witness :
  exists w : world,
    run (RmwContext.RmwAtomic Scenario.rmw_fickle 1) Scenario.slot_hello
    = Some (true, w)
    /\ log w
       = [ev_try_lock true false;
          ev_cb value_buffer 5 modification_ptr 1 NULL 6;
          ev_cb value_buffer 5 modification_ptr 1 value_buffer 0;
          ev_store_length 6;
          ev_unlock false]
    /\ Value.length_ (value w) = 6
    /\ Value.buffer (value w)
       = list_byte_of_string "hello!" ++ repeat x00 10.
Proof.
  exact (RmwAtomic_commit_calls Scenario.rmw_fickle Scenario.slot_hello 0
           ltac:(by_evaluation) eq_refl eq_refl eq_refl).
Defined.

(** [RmwAtomic] on a retired slot gives up at its first attempt, before
    any call of the merge function, and leaves the slot as it is. *)
Lemma RmwAtomic_replaced (ctx : RmwContext.t) (fuel : nat) (v : Value.t) :
  uint64 (Value.gen_lock_ v) ->
  Value.is_replaced v = true ->
  run (RmwContext.RmwAtomic ctx (S fuel)) v
  = Some (false, {| value := v; log := [ev_try_lock false true] |}).
Proof.
  intros H Hr. unfold run, RmwContext.RmwAtomic.
  unfold bind at 1. rewrite (acquire_replaced fuel v [] H Hr). reflexivity.
Qed.

(** ** The concrete scenario *)

(** C3 (as amended).  On the slot of capacity 16 and length 0, run in
    sequence: [PutAtomic] of "hello" returns [true] and a read gives "hello"
    and 5; [PutAtomic] of the 34-byte payload returns [false] and a read
    still gives "hello" and 5; [RmwAtomic] with the merge function that
    appends "!" then returns [false] as well, the slot having been retired,
    and a read still gives "hello" and 5. *)
Theorem scenario_rmw_refused (f1 f2 f3 f4 f5 f6 : nat) :
  exists v1 v2 v3 : Value.t,
    Scenario.outcome
      (run (UpsertContext.PutAtomic (Scenario.upsert Scenario.hello) (S f1))
           Scenario.slot16)
    = Some (true, v1)
    /\ Scenario.read (S f2) v1 = Some (mk_read Scenario.hello 5 Ok)
    /\ Scenario.outcome
         (run (UpsertContext.PutAtomic (Scenario.upsert Scenario.too_long)
                                       (S f3)) v1)
       = Some (false, v2)
    /\ Scenario.read (S f4) v2 = Some (mk_read Scenario.hello 5 Ok)
    /\ Scenario.outcome
         (run (RmwContext.RmwAtomic Scenario.rmw_bang (S f5)) v2)
       = Some (false, v3)
    /\ Scenario.read (S f6) v3 = Some (mk_read Scenario.hello 5 Ok).
Proof.
  set (v1 := Value.mk (2 ^ 63 + 1) (Value.sizeof + 16) 5
                      (Scenario.hello ++ repeat x00 11)).
  assert (H1 : uint64 (Value.gen_lock_ v1)) by by_evaluation.
  assert (R : forall f, Scenario.read (S f) v1
                        = Some (mk_read Scenario.hello 5 Ok)).
  { intros f. unfold Scenario.read, run. rewrite GetAtomic_alone.
    reflexivity. }
  exists v1, v1, v1.
  split. { rewrite PutAtomic_free by by_evaluation. vm_compute. reflexivity. }
  split. { apply R. }
  split. { rewrite (PutAtomic_replaced _ f3 v1 H1 eq_refl). reflexivity. }
  split. { apply R. }
  split. { rewrite (RmwAtomic_replaced _ f5 v1 H1 eq_refl). reflexivity. }
  apply R.
Qed.

(** C3 (as stated) fails: whatever the numbers of attempts, the run in
    which the two [PutAtomic] calls return [true] and [false] cannot go on
    with an [RmwAtomic] that returns [true] and a read that gives "hello!"
    and 6. *)
Lemma scenario_rmw_success_refuted :
  ~ (exists (f1 f2 f3 f4 f5 f6 : nat) (v1 v2 v3 : Value.t),
        Scenario.outcome
          (run (UpsertContext.PutAtomic (Scenario.upsert Scenario.hello) f1)
               Scenario.slot16)
        = Some (true, v1)
        /\ Scenario.read f2 v1 = Some (mk_read Scenario.hello 5 Ok)
        /\ Scenario.outcome
             (run (UpsertContext.PutAtomic
                     (Scenario.upsert Scenario.too_long) f3) v1)
           = Some (false, v2)
        /\ Scenario.read f4 v2 = Some (mk_read Scenario.hello 5 Ok)
        /\ Scenario.outcome
             (run (RmwContext.RmwAtomic Scenario.rmw_bang f5) v2)
           = Some (true, v3)
        /\ Scenario.read f6 v3
           = Some (mk_read (list_byte_of_string "hello!") 6 Ok)).
Proof.
  intros (f1 & f2 & f3 & f4 & f5 & f6 & v1 & v2 & v3
          & E1 & _ & E2 & _ & E3 & _).
  destruct f1 as [|f1]; [discriminate E1|].
  rewrite PutAtomic_free in E1 by by_evaluation.
  vm_compute in E1. injection E1 as <-.
  destruct f3 as [|f3]; [discriminate E2|].
  rewrite PutAtomic_replaced in E2 by by_evaluation.
  cbn [Scenario.outcome value] in E2. injection E2 as <-.
  destruct f5 as [|f5]; [discriminate E3|].
  rewrite RmwAtomic_replaced in E3 by by_evaluation.
  discriminate E3.
Qed.

(** ** Retirement *)

Lemma run_fuel_0_PutAtomic (ctx : UpsertContext.t) (v : Value.t) :
  run (UpsertContext.PutAtomic ctx 0) v = None.
Proof. reflexivity. Qed.

Lemma run_fuel_0_RmwAtomic (ctx : RmwContext.t) (v : Value.t) :
  run (RmwContext.RmwAtomic ctx 0) v = None.
Proof. reflexivity. Qed.

Lemma PutAtomic_spins (ctx : UpsertContext.t) (fuel : nat) (v : Value.t) :
  uint64 (Value.gen_lock_ v) ->
  Value.is_locked v = true -> Value.is_replaced v = false ->
  run (UpsertContext.PutAtomic ctx fuel) v = None.
Proof.
  intros H Hl Hr. unfold run, UpsertContext.PutAtomic. unfold bind at 1.
  rewrite (acquire_spins fuel v [] H Hl Hr). reflexivity.
Qed.

Lemma RmwAtomic_spins (ctx : RmwContext.t) (fuel : nat) (v : Value.t) :
  uint64 (Value.gen_lock_ v) ->
  Value.is_locked v = true -> Value.is_replaced v = false ->
  run (RmwContext.RmwAtomic ctx fuel) v = None.
Proof.
  intros H Hl Hr. unfold run, RmwContext.RmwAtomic. unfold bind at 1.
  rewrite (acquire_spins fuel v [] H Hl Hr). reflexivity.
Qed.

(** On a retired slot nobody holds, an operation that completes reports
    failure and leaves the slot as it found it. *)
Lemma step_on_replaced (s s' : slot) (o : op) (r : bool) :
  consistent s ->
  Value.is_replaced (contents s) = true ->
  step s o r s' ->
  r = false /\ s' = s.
Proof.
  intros [Hc Hheld] Hrep Hstep.
  destruct Hstep as [v h ok replaced c E | v replaced
                    | v h ctx fuel r w E | v h ctx fuel r w E];
    cbn [contents held] in *.
  - rewrite (try_lock_spec _ Hc) in E.
    unfold Value.is_replaced, AtomicGenLock.load in Hrep.
    rewrite Hrep, orb_true_r in E. injection E as <- <- <-.
    rewrite set_gen_lock_same, orb_false_r. split; reflexivity.
  - destruct (Hheld eq_refl) as [_ Hr]. congruence.
  - destruct fuel as [|fuel]; [discriminate E|].
    rewrite (PutAtomic_replaced ctx fuel v Hc Hrep) in E.
    injection E as <- <-. split; reflexivity.
  - destruct fuel as [|fuel]; [discriminate E|].
    rewrite (RmwAtomic_replaced ctx fuel v Hc Hrep) in E.
    injection E as <- <-. split; reflexivity.
Qed.

Lemma steps_on_replaced (s s' : slot) (tr : list (op * bool)) :
  consistent s ->
  Value.is_replaced (contents s) = true ->
  steps s tr s' ->
  s' = s /\ Forall (fun x => snd x = false) tr.
Proof.
  intros Hc Hrep Hsteps.
  induction Hsteps as [s | s s' s'' o r tr Hstep Hsteps IH].
  - split; [reflexivity | constructor].
  - destruct (step_on_replaced s s' o r Hc Hrep Hstep) as [-> ->].
    destruct (IH Hc Hrep) as [-> Hall].
    split; [reflexivity | constructor; [reflexivity | exact Hall]].
Qed.

(** C7.  Retirement is terminal.  For every slot whose lock word has the
    replaced bit set (the lock being held by nobody, as for every slot whose
    word is replaced and not locked): [try_lock], [PutAtomic] and [RmwAtomic]
    by any caller complete and fail, no caller is in a position to call
    [unlock], and after any sequence of operations every operation has failed
    and the slot, its replaced bit included, is what it was. *)
Theorem retirement_is_terminal (s : slot) :
  consistent s ->
  Value.is_replaced (contents s) = true ->
  step s op_try_lock false s
  /\ (forall ctx : UpsertContext.t, step s (op_PutAtomic ctx) false s)
  /\ (forall ctx : RmwContext.t, step s (op_RmwAtomic ctx) false s)
  /\ (forall (b r : bool) (s' : slot), ~ step s (op_unlock b) r s')
  /\ (forall (tr : list (op * bool)) (s' : slot),
        steps s tr s' ->
        Forall (fun x => snd x = false) tr
        /\ Value.is_replaced (contents s') = true
        /\ s' = s).
Proof.
  intros Hc Hrep. destruct s as [v h]. cbn [contents] in Hrep.
  pose proof Hc as [Hword Hheld]. cbn [contents held] in Hword, Hheld.
  split; [|split; [|split; [|split]]].
  - pose proof (step_try_lock v h false true (Value.gen_lock_ v)) as S1.
    rewrite set_gen_lock_same, orb_false_r in S1. apply S1.
    rewrite (try_lock_spec _ Hword).
    unfold Value.is_replaced, AtomicGenLock.load in Hrep.
    rewrite Hrep, orb_true_r. reflexivity.
  - intros ctx.
    exact (step_PutAtomic v h ctx 1 false _
             (PutAtomic_replaced ctx 0 v Hword Hrep)).
  - intros ctx.
    exact (step_RmwAtomic v h ctx 1 false _
             (RmwAtomic_replaced ctx 0 v Hword Hrep)).
  - intros b r s' Hstep. inversion Hstep; subst.
    destruct (Hheld eq_refl) as [_ Hr]. congruence.
  - intros tr s' Hsteps.
    destruct (steps_on_replaced _ _ _ Hc Hrep Hsteps) as [-> Hall].
    repeat split; assumption.
Qed.

Lemma retirement_is_terminal_witness :
  let s := mk_slot (Value.mk (2 ^ 63 + 1) (Value.sizeof + 16) 5
                             (Scenario.hello ++ repeat x00 11)) false in
  consistent s /\ Value.is_replaced (contents s) = true /\
  step s op_try_lock false s /\
  step s (op_PutAtomic (Scenario.upsert Scenario.bang)) false s /\
  step s (op_RmwAtomic Scenario.rmw_bang) false s.
Proof.
  intros s.
  assert (Hc : consistent s).
  { split; [by_evaluation | intros H; discriminate H]. }
  destruct (retirement_is_terminal s Hc eq_refl) as (T & P & R & _).
  split; [exact Hc|]. split; [reflexivity|]. split; [exact T|].
  split; [apply P | apply R].
Defined.

(** The words [PutAtomic] and [RmwAtomic] leave are words in range, and
    neither completes on a slot that stays locked by somebody else. *)
Lemma PutAtomic_completes (ctx : UpsertContext.t) (fuel : nat)
      (v : Value.t) (r : bool) (w : world) :
  uint64 (Value.gen_lock_ v) ->
  run (UpsertContext.PutAtomic ctx fuel) v = Some (r, w) ->
  uint64 (Value.gen_lock_ (value w))
  /\ (Value.is_locked v = true -> Value.is_replaced v = true).
Proof.
  intros H E.
  destruct (Value.is_replaced v) eqn:Hr.
  - destruct fuel as [|fuel]; [discriminate E|].
    rewrite (PutAtomic_replaced ctx fuel v H Hr) in E.
    injection E as <- <-. split; [exact H | reflexivity].
  - destruct (Value.is_locked v) eqn:Hl.
    + rewrite (PutAtomic_spins ctx fuel v H Hl Hr) in E. discriminate E.
    + destruct fuel as [|fuel]; [discriminate E|].
      rewrite (PutAtomic_free ctx fuel v H Hl Hr) in E.
      split; [|intros X; discriminate X].
      destruct (Value.size_ v <? _); injection E as <- <-;
        [exact (unlock_range true _) | exact (unlock_range false _)].
Qed.

Lemma RmwAtomic_completes (ctx : RmwContext.t) (fuel : nat)
      (v : Value.t) (r : bool) (w : world) :
  uint64 (Value.gen_lock_ v) ->
  run (RmwContext.RmwAtomic ctx fuel) v = Some (r, w) ->
  uint64 (Value.gen_lock_ (value w))
  /\ (Value.is_locked v = true -> Value.is_replaced v = true).
Proof.
  intros H E.
  destruct (Value.is_replaced v) eqn:Hr.
  - destruct fuel as [|fuel]; [discriminate E|].
    rewrite (RmwAtomic_replaced ctx fuel v H Hr) in E.
    injection E as <- <-. split; [exact H | reflexivity].
  - destruct (Value.is_locked v) eqn:Hl.
    + rewrite (RmwAtomic_spins ctx fuel v H Hl Hr) in E. discriminate E.
    + destruct fuel as [|fuel]; [discriminate E|].
      rewrite (RmwAtomic_free ctx v H Hl Hr fuel) in E.
      split; [|intros X; discriminate X].
      destruct (Value.size_ v <? _); injection E as <- <-;
        [exact (unlock_range true _) | exact (unlock_range false _)].
Qed.

(** Every operation keeps the lock consistent with its word. *)
Lemma step_consistent (s s' : slot) (o : op) (r : bool) :
  consistent s -> step s o r s' -> consistent s'.
Proof.
  intros Hcons Hstep. pose proof Hcons as [Hc Hheld].
  destruct Hstep as [v h ok replaced c E | v replaced
                    | v h ctx fuel r w E | v h ctx fuel r w E];
    cbn [contents held] in Hc, Hheld.
  - rewrite (try_lock_spec _ Hc) in E. clear Hheld.
    destruct (GenLock.locked (GenLock.of_control (Value.gen_lock_ v))) eqn:Hl;
      [|destruct (GenLock.replaced
                   (GenLock.of_control (Value.gen_lock_ v))) eqn:Hr];
      cbn [orb] in E; injection E as <- <- <-.
    + rewrite set_gen_lock_same, orb_false_r. exact Hcons.
    + rewrite set_gen_lock_same, orb_false_r. exact Hcons.
    + destruct (of_control_locked _ Hc Hl Hr) as [Hf Hw].
      destruct (word_fields _ Hc) as (g & l & r' & Hg & Hcw & Hfw).
      rewrite Hfw in Hl, Hr. cbn [GenLock.locked GenLock.replaced] in Hl, Hr.
      subst l r'.
      split.
      * change (uint64 (Value.gen_lock_ v + 2 ^ 62)).
        unfold uint64. lia.
      * intros _.
        change (GenLock.locked
                  (GenLock.of_control (Value.gen_lock_ v + 2 ^ 62)) = true
                /\ GenLock.replaced
                     (GenLock.of_control (Value.gen_lock_ v + 2 ^ 62))
                   = false).
        rewrite Hf. split; reflexivity.
  - split; cbn [contents held Value.set_gen_lock Value.gen_lock_].
    + apply unlock_range.
    + intros X; discriminate X.
  - destruct (PutAtomic_completes ctx fuel v r w Hc E) as [Hw Hfree].
    split; cbn [contents held]; [exact Hw|].
    intros Hh. destruct (Hheld Hh) as [Hl Hr].
    rewrite (Hfree Hl) in Hr. discriminate Hr.
  - destruct (RmwAtomic_completes ctx fuel v r w Hc E) as [Hw Hfree].
    split; cbn [contents held]; [exact Hw|].
    intros Hh. destruct (Hheld Hh) as [Hl Hr].
    rewrite (Hfree Hl) in Hr. discriminate Hr.
Qed.

(** Slots reached from a fresh one are consistent: whenever the word of such
    a slot has the replaced bit set, nobody holds its lock. *)
Lemma reachable_consistent (s0 s : slot) (tr : list (op * bool)) :
  fresh s0 -> steps s0 tr s -> consistent s.
Proof.
  intros [Hw Hh] Hsteps.
  assert (H0 : consistent s0).
  { split.
    - rewrite Hw. unfold uint64, AtomicGenLock.init. lia.
    - rewrite Hh. intros X; discriminate X. }
  clear Hw Hh.
  induction Hsteps as [s | s s' s'' o r tr Hstep Hsteps IH];
    [exact H0|].
  apply IH. exact (step_consistent s s' o r H0 Hstep).
Qed.

(** Once a slot reached from a fresh one shows the replaced bit, every
    later operation on it fails and the slot stays as it is. *)
Lemma retired_slot_is_frozen
      (s0 s s' : slot) (tr tr' : list (op * bool)) :
  fresh s0 -> steps s0 tr s ->
  Value.is_replaced (contents s) = true ->
  steps s tr' s' ->
  s' = s /\ Forall (fun x => snd x = false) tr'.
Proof.
  intros H0 Hreach Hrep Hsteps.
  exact (steps_on_replaced s s' tr'
           (reachable_consistent s0 s tr H0 Hreach) Hrep Hsteps).
Qed.

(** ** One writer, interleaved with readers *)

(** The writer, scheduled alone, does what [PutAtomic] does. *)
Lemma writer_alone (ctx : UpsertContext.t) (v : Value.t) (n : nat) :
  uint64 (Value.gen_lock_ v) ->
  Value.is_locked v = false -> Value.is_replaced v = false ->
  exists (r : bool) (w : world),
    run (UpsertContext.PutAtomic ctx 1) v = Some (r, w)
    /\ Interleaving.run_schedule
         ctx (repeat Interleaving.the_writer 5) (Interleaving.start v n)
       = Interleaving.mk_config (value w) (Interleaving.w_return r)
                                (repeat Interleaving.r_load_before n).
Proof.
  intros H Hl Hr. rewrite (PutAtomic_free ctx 0 v H Hl Hr).
  unfold Interleaving.run_schedule, Interleaving.start.
  cbn [repeat fold_left].
  unfold Interleaving.sched_step at 5.
  cbn [Interleaving.shared Interleaving.writer Interleaving.readers
       Interleaving.writer_step].
  rewrite (try_lock_spec _ H).
  unfold Value.is_locked, Value.is_replaced, AtomicGenLock.load in Hl, Hr.
  rewrite Hl, Hr. cbn [orb negb andb].
  unfold Interleaving.sched_step at 4.
  cbn [Interleaving.shared Interleaving.writer Interleaving.readers
       Interleaving.writer_step Value.size_ Value.set_gen_lock].
  destruct (Value.size_ v <? _).
  - eexists _, _. split; [reflexivity|]. reflexivity.
  - eexists _, _. split; [reflexivity|]. reflexivity.
Qed.

(** C9.  Two interleavings of one [PutAtomic] (of the payload "!" into the
    slot holding "hello") with one [GetAtomic].  In the first the reader runs
    while the writer holds the lock, after the store of the length and before
    the copy: both loads of the lock see the same generation number, and the
    callback is given the new length 1 with the old first byte.  In the
    second the reader leaves its loop before the writer starts and calls its
    callback after the copy: the callback is given the old length 5 with the
    bytes "!ello".  Neither is the pair before the update ("hello", 5) nor the
    pair after it ("!", 1). *)
Theorem GetAtomic_torn_read :
  let ctx := Scenario.upsert Scenario.bang in
  let v := Scenario.slot_hello in
  let w := Interleaving.the_writer in
  let r := Interleaving.reader 0 in
  Interleaving.delivered
    (Interleaving.run_schedule ctx [w; w; w; r; r; r; r]
                               (Interleaving.start v 1))
  = [mk_read (list_byte_of_string "h") 1 Ok]
  /\ Interleaving.delivered
       (Interleaving.run_schedule ctx [r; r; r; w; w; w; w; r]
                                  (Interleaving.start v 1))
     = [mk_read (list_byte_of_string "!ello") 5 Ok]
  /\ Interleaving.pair_of_slot v = mk_read Scenario.hello 5 Ok
  /\ Interleaving.pair_of_update ctx = mk_read Scenario.bang 1 Ok.
Proof.
  cbv zeta. split; [|split; [|split]]; vm_compute; reflexivity.
Qed.

(** * Further properties of the code *)

(** ** The two views of the lock word *)

(** X1.  Storing the fields read from a 64-bit word gives the word back,
    and loading a stored [GenLock] gives its flags back with the generation
    number reduced to 62 bits. *)
Theorem GenLock_views_roundtrip (c : Z) (g : GenLock.t) :
  uint64 c ->
  AtomicGenLock.store (AtomicGenLock.load c) = c
  /\ AtomicGenLock.load (AtomicGenLock.store g)
     = GenLock.mk (GenLock.gen_number g mod 2 ^ 62)
                  (GenLock.locked g) (GenLock.replaced g).
Proof.
  intros H. split.
  - exact (control_of_control c H).
  - unfold AtomicGenLock.load, AtomicGenLock.store, GenLock.control_.
    apply of_control_fields. apply Z.mod_pos_bound. lia.
Qed.

Lemma GenLock_views_roundtrip_witness :
  AtomicGenLock.store (AtomicGenLock.load (2 ^ 63 + 2 ^ 62 + 9))
  = 2 ^ 63 + 2 ^ 62 + 9
  /\ AtomicGenLock.load (AtomicGenLock.store (GenLock.mk (2 ^ 62 + 3) true false))
     = GenLock.mk ((2 ^ 62 + 3) mod 2 ^ 62) true false.
Proof.
  exact (GenLock_views_roundtrip (2 ^ 63 + 2 ^ 62 + 9)
           (GenLock.mk (2 ^ 62 + 3) true false) ltac:(by_evaluation)).
Defined.

(** ** Initial writes *)

Lemma store_zero : AtomicGenLock.store (GenLock.of_control 0) = 0.
Proof. reflexivity. Qed.

(** X2.  [Put] on any slot, whatever its lock word was (locked or replaced
    included), leaves a slot with lock word 0 whose capacity is exactly the
    length of the payload, and [Get] and [GetAtomic] then give the payload
    and its length. *)
Theorem Put_then_read
        (v : Value.t) (key : Z) (payload : list byte) (fuel : nat) :
  addressable Value.sizeof payload ->
  let ctx :=
    UpsertContext.mk key payload (Z.of_nat (List.length payload)) in
  exists v' : Value.t,
    run (UpsertContext.Put ctx) v = Some (tt, {| value := v'; log := [] |})
    /\ Value.gen_lock_ v' = 0
    /\ Value.capacity v' = Z.of_nat (List.length payload)
    /\ Value.length_ v' = Z.of_nat (List.length payload)
    /\ Scenario.outcome (run ReadContext.Get v')
       = Some (mk_read payload (Z.of_nat (List.length payload)) Ok, v')
    /\ Scenario.outcome (run (ReadContext.GetAtomic (S fuel)) v')
       = Some (mk_read payload (Z.of_nat (List.length payload)) Ok, v').
Proof.
  intros Hfit ctx. subst ctx. unfold addressable, Value.sizeof in Hfit.
  eexists. split; [reflexivity|].
  cbn [Value.gen_lock_ Value.length_ UpsertContext.length_
       UpsertContext.input_].
  split; [exact store_zero|]. split.
  - unfold Value.capacity, Value.sizeof, wrap64. cbn [Value.size_].
    rewrite Z.mod_small by lia. lia.
  - split; [reflexivity|].
    unfold run. rewrite GetAtomic_alone.
    unfold ReadContext.Get, Scenario.outcome. run_monad.
    unfold ReadContext.deliver. cbn [Value.buffer Value.length_].
    rewrite firstn_memcpy. split; reflexivity.
Qed.

Lemma Put_then_read_witness :
  exists v' : Value.t,
    run (UpsertContext.Put (UpsertContext.mk 1 Scenario.hello 5))
        (Value.mk (2 ^ 63 + 1) 0 0 [])
    = Some (tt, {| value := v'; log := [] |})
    /\ Value.gen_lock_ v' = 0
    /\ Value.capacity v' = 5
    /\ Value.length_ v' = 5
    /\ Scenario.outcome (run ReadContext.Get v')
       = Some (mk_read Scenario.hello 5 Ok, v')
    /\ Scenario.outcome (run (ReadContext.GetAtomic 1) v')
       = Some (mk_read Scenario.hello 5 Ok, v').
Proof.
  exact (Put_then_read (Value.mk (2 ^ 63 + 1) 0 0 []) 1 Scenario.hello 0
                       ltac:(by_evaluation)).
Defined.

(** The slot [Put] leaves. *)
Lemma Put_slot (v : Value.t) (key : Z) (payload : list byte) :
  addressable Value.sizeof payload ->
  exists v' : Value.t,
    run (UpsertContext.Put
           (UpsertContext.mk key payload (Z.of_nat (List.length payload)))) v
    = Some (tt, {| value := v'; log := [] |})
    /\ Value.gen_lock_ v' = 0
    /\ Value.size_ v' = Value.sizeof + Z.of_nat (List.length payload).
Proof.
  intros Hfit. unfold addressable, Value.sizeof in Hfit.
  eexists. split; [reflexivity|]. split; [exact store_zero|].
  cbn [Value.size_ UpsertContext.length_]. unfold wrap64, Value.sizeof.
  apply Z.mod_small. lia.
Qed.

(** X3.  A slot written by [Put] with a payload of [n] bytes accepts an
    in-place update exactly when the new payload has at most [n] bytes:
    [PutAtomic] returns [true] for those and [false] for longer ones. *)
Theorem Put_then_PutAtomic
        (v : Value.t) (k1 k2 : Z) (p q : list byte) (fuel : nat) :
  addressable Value.sizeof p -> addressable Value.sizeof q ->
  exists (v' : Value.t) (w : world),
    run (UpsertContext.Put
           (UpsertContext.mk k1 p (Z.of_nat (List.length p)))) v
    = Some (tt, {| value := v'; log := [] |})
    /\ run (UpsertContext.PutAtomic
              (UpsertContext.mk k2 q (Z.of_nat (List.length q))) (S fuel)) v'
       = Some ((List.length q <=? List.length p)%nat, w).
Proof.
  intros Hp Hq. destruct (Put_slot v k1 p Hp) as (v' & E & Hword & Hsize).
  exists v'. rewrite E.
  assert (Hc : uint64 (Value.gen_lock_ v'))
    by (rewrite Hword; unfold uint64; lia).
  assert (Hl : Value.is_locked v' = false)
    by (unfold Value.is_locked; rewrite Hword; reflexivity).
  assert (Hr : Value.is_replaced v' = false)
    by (unfold Value.is_replaced; rewrite Hword; reflexivity).
  rewrite (PutAtomic_free _ fuel v' Hc Hl Hr).
  cbn [UpsertContext.length_]. rewrite Hsize.
  unfold addressable, Value.sizeof in *. unfold wrap64.
  rewrite Z.mod_small by lia.
  destruct (Nat.leb_spec (List.length q) (List.length p)) as [Hle | Hgt].
  - replace (_ <? _) with false by (symmetry; apply Z.ltb_ge; lia).
    eexists. split; reflexivity.
  - replace (_ <? _) with true by (symmetry; apply Z.ltb_lt; lia).
    eexists. split; reflexivity.
Qed.

Lemma Put_then_PutAtomic_witness :
  exists (v' : Value.t) (w : world),
    run (UpsertContext.Put (UpsertContext.mk 1 Scenario.hello 5))
        Scenario.slot16
    = Some (tt, {| value := v'; log := [] |})
    /\ run (UpsertContext.PutAtomic
              (UpsertContext.mk 1 Scenario.bang 1) 1) v'
       = Some (true, w).
Proof.
  exact (Put_then_PutAtomic Scenario.slot16 1 1 Scenario.hello Scenario.bang
                            0 ltac:(by_evaluation) ltac:(by_evaluation)).
Defined.

(** ** What an in-place update leaves behind *)

Lemma replaced_after_unlock_false (c : Z) :
  uint64 c ->
  GenLock.locked (GenLock.of_control c) = false ->
  GenLock.replaced (GenLock.of_control c) = false ->
  GenLock.replaced
    (GenLock.of_control (AtomicGenLock.unlock false (c + 2 ^ 62)))
  = true.
Proof.
  intros H Hl Hr. destruct (of_control_locked c H Hl Hr) as [Hf Hw].
  destruct (word_fields c H) as (g & l & r & Hg & Hc & Hfc).
  rewrite Hfc in Hl, Hr. cbn [GenLock.locked GenLock.replaced] in Hl, Hr.
  subst l r.
  assert (Hrange : uint64 (c + 2 ^ 62)) by (unfold uint64; lia).
  pose proof (unlock_locked (c + 2 ^ 62) false Hrange) as U.
  unfold AtomicGenLock.load in U. rewrite Hf in U.
  rewrite (U eq_refl). reflexivity.
Qed.

(** X4.  An in-place update that returns [true] is the last operation that
    succeeds on its slot: after a [PutAtomic] or an [RmwAtomic] has returned
    [true], the replaced bit is set, and every [try_lock], [PutAtomic] and
    [RmwAtomic] that follows returns [false] and leaves the slot as the
    successful update left it. *)
Theorem successful_update_is_the_last
        (s s' s'' : slot) (o : op) (tr : list (op * bool)) :
  consistent s ->
  (forall b : bool, o <> op_unlock b) -> o <> op_try_lock ->
  step s o true s' ->
  steps s' tr s'' ->
  Value.is_replaced (contents s') = true
  /\ s'' = s'
  /\ Forall (fun x => snd x = false) tr.
Proof.
  intros Hcons Hnu Hnt Hstep Hsteps.
  assert (Hrep : Value.is_replaced (contents s') = true).
  { pose proof Hcons as [Hc Hheld].
    inversion Hstep as [v h ok replaced c E | v replaced
                       | v h ctx fuel r w E | v h ctx fuel r w E];
      subst; cbn [contents held] in *.
    - exfalso. apply Hnt. reflexivity.
    - exfalso. apply (Hnu replaced). reflexivity.
    - destruct (Value.is_replaced v) eqn:Hr.
      + destruct fuel as [|fuel]; [discriminate E|].
        rewrite (PutAtomic_replaced ctx fuel v Hc Hr) in E. discriminate E.
      + destruct (Value.is_locked v) eqn:Hl.
        * rewrite (PutAtomic_spins ctx fuel v Hc Hl Hr) in E. discriminate E.
        * destruct fuel as [|fuel]; [discriminate E|].
          rewrite (PutAtomic_free ctx fuel v Hc Hl Hr) in E.
          destruct (Value.size_ v <? _); [discriminate E|].
          injection E as <-.
          exact (replaced_after_unlock_false _ Hc Hl Hr).
    - destruct (Value.is_replaced v) eqn:Hr.
      + destruct fuel as [|fuel]; [discriminate E|].
        rewrite (RmwAtomic_replaced ctx fuel v Hc Hr) in E. discriminate E.
      + destruct (Value.is_locked v) eqn:Hl.
        * rewrite (RmwAtomic_spins ctx fuel v Hc Hl Hr) in E. discriminate E.
        * destruct fuel as [|fuel]; [discriminate E|].
          rewrite (RmwAtomic_free ctx v Hc Hl Hr fuel) in E.
          destruct (Value.size_ v <? _); [discriminate E|].
          injection E as <-.
          exact (replaced_after_unlock_false _ Hc Hl Hr). }
  split; [exact Hrep|].
  exact (steps_on_replaced s' s'' tr
           (step_consistent s s' o true Hcons Hstep) Hrep Hsteps).
Qed.

Lemma successful_update_is_the_last_witness :
  let v' := Value.mk (2 ^ 63 + 2) (Value.sizeof + 16) 1
                     (list_byte_of_string "!ello" ++ repeat x00 11) in
  step (mk_slot Scenario.slot_hello false)
       (op_PutAtomic (Scenario.upsert Scenario.bang)) true
       (mk_slot v' false)
  /\ Value.is_replaced v' = true
  /\ Forall (fun x => snd x = false)
            [(op_RmwAtomic Scenario.rmw_bang, false); (op_try_lock, false)].
Proof.
  intros v'.
  set (w1 := {| value := v';
                log := [ev_try_lock true false; ev_store_length 1;
                        ev_memcpy 1; ev_unlock false] |}).
  set (w2 := {| value := v'; log := [ev_try_lock false true] |}).
  assert (S1 : step (mk_slot Scenario.slot_hello false)
                    (op_PutAtomic (Scenario.upsert Scenario.bang)) true
                    (mk_slot (value w1) false)).
  { apply (step_PutAtomic Scenario.slot_hello false _ 1 true w1).
    vm_compute. reflexivity. }
  assert (S2 : step (mk_slot v' false) (op_RmwAtomic Scenario.rmw_bang)
                    false (mk_slot (value w2) false)).
  { apply (step_RmwAtomic v' false _ 1 false w2). vm_compute. reflexivity. }
  assert (S3 : step (mk_slot v' false) op_try_lock false
                    (mk_slot (Value.set_gen_lock v' (2 ^ 63 + 2))
                             (false || false))).
  { apply (step_try_lock v' false false true (2 ^ 63 + 2)).
    vm_compute. reflexivity. }
  assert (Hc : consistent (mk_slot Scenario.slot_hello false)).
  { split; [by_evaluation | intros H; discriminate H]. }
  split; [exact S1|].
  destruct (successful_update_is_the_last
              (mk_slot Scenario.slot_hello false) (mk_slot v' false)
              (mk_slot v' false)
              (op_PutAtomic (Scenario.upsert Scenario.bang))
              [(op_RmwAtomic Scenario.rmw_bang, false); (op_try_lock, false)]
              Hc
              ltac:(intros b H; discriminate H)
              ltac:(intros H; discriminate H)
              S1
              (steps_cons _ _ _ _ _ _ S2
                 (steps_cons _ _ _ _ _ _ S3 (steps_nil _))))
    as (Hrep & _ & Hall).
  split; [exact Hrep | exact Hall].
Defined.

Lemma unlock_true_after_try_lock (c : Z) :
  uint64 c ->
  GenLock.locked (GenLock.of_control c) = false ->
  GenLock.replaced (GenLock.of_control c) = false ->
  AtomicGenLock.unlock true (c + 2 ^ 62) = c + 1.
Proof.
  intros H Hl Hr. destruct (word_fields c H) as (g & l & r & Hg & Hc & Hf).
  rewrite Hf in Hl, Hr. cbn [GenLock.locked GenLock.replaced] in Hl, Hr.
  subst l r.
  replace (c + 2 ^ 62) with (g + 2 ^ 62 + (if false then 2 ^ 63 else 0))
    by lia.
  rewrite (unlock_true_fields g false Hg). lia.
Qed.

Lemma of_control_next_generation (c : Z) :
  uint64 c ->
  GenLock.locked (GenLock.of_control c) = false ->
  GenLock.replaced (GenLock.of_control c) = false ->
  GenLock.gen_number (GenLock.of_control c) < 2 ^ 62 - 1 ->
  uint64 (c + 1)
  /\ GenLock.of_control (c + 1)
     = GenLock.mk (GenLock.gen_number (GenLock.of_control c) + 1) false false.
Proof.
  intros H Hl Hr Hgen.
  destruct (word_fields c H) as (g & l & r & Hg & Hc & Hf).
  rewrite Hf in Hl, Hr, Hgen |- *.
  cbn [GenLock.locked GenLock.replaced GenLock.gen_number] in *.
  subst l r. split; [unfold uint64; lia|].
  replace (c + 1)
    with ((g + 1) + (if false then 2 ^ 62 else 0)
          + (if false then 2 ^ 63 else 0)) by lia.
  apply (of_control_fields (g + 1) false false). lia.
Qed.

(** X5.  A [PutAtomic] refused for lack of capacity does not retire the
    slot: it leaves it unlocked and not replaced, with the lock word advanced
    by one generation and contents unchanged, so that a [PutAtomic] of a
    payload that fits succeeds next and is read back. *)
Theorem refused_update_leaves_slot_usable
        (v : Value.t) (k1 k2 : Z) (p q : list byte) (f1 f2 f3 : nat) :
  Value.well_formed v ->
  Value.is_locked v = false -> Value.is_replaced v = false ->
  GenLock.gen_number (AtomicGenLock.load (Value.gen_lock_ v)) < 2 ^ 62 - 1 ->
  Value.capacity v < Z.of_nat (List.length p) ->
  addressable Value.sizeof p ->
  Z.of_nat (List.length q) <= Value.capacity v ->
  exists w1 w2 : world,
    run (UpsertContext.PutAtomic
           (UpsertContext.mk k1 p (Z.of_nat (List.length p))) (S f1)) v
    = Some (false, w1)
    /\ value w1 = Value.set_gen_lock v (Value.gen_lock_ v + 1)
    /\ Value.is_locked (value w1) = false
    /\ Value.is_replaced (value w1) = false
    /\ run (UpsertContext.PutAtomic
              (UpsertContext.mk k2 q (Z.of_nat (List.length q))) (S f2))
           (value w1)
       = Some (true, w2)
    /\ ReadContext.GetAtomic (S f3) w2
       = Some (mk_read q (Z.of_nat (List.length q)) Ok, w2).
Proof.
  intros (Hc & Hs & Hlen) Hl Hr Hgen Hcap Hfit Hq.
  pose proof Hl as Hl'. pose proof Hr as Hr'.
  unfold Value.is_locked, Value.is_replaced, AtomicGenLock.load
    in Hl', Hr', Hgen.
  destruct (of_control_next_generation _ Hc Hl' Hr' Hgen) as [Hc1 Hflags].
  set (v1 := Value.set_gen_lock v (Value.gen_lock_ v + 1)).
  assert (Hl1 : Value.is_locked v1 = false).
  { unfold Value.is_locked, AtomicGenLock.load.
    change (Value.gen_lock_ v1) with (Value.gen_lock_ v + 1).
    rewrite Hflags. reflexivity. }
  assert (Hr1 : Value.is_replaced v1 = false).
  { unfold Value.is_replaced, AtomicGenLock.load.
    change (Value.gen_lock_ v1) with (Value.gen_lock_ v + 1).
    rewrite Hflags. reflexivity. }
  rewrite (PutAtomic_free _ f1 v Hc Hl Hr).
  cbn [UpsertContext.length_ UpsertContext.input_].
  unfold addressable, uint64, Value.capacity, Value.sizeof in *.
  replace (Value.size_ v <? wrap64 (24 + Z.of_nat (List.length p)))
    with true.
  2:{ symmetry. apply Z.ltb_lt. unfold wrap64. rewrite Z.mod_small; lia. }
  rewrite (unlock_true_after_try_lock _ Hc Hl' Hr'). fold v1.
  eexists. eexists. split; [reflexivity|]. cbn [value].
  split; [reflexivity|]. split; [exact Hl1|]. split; [exact Hr1|].
  rewrite (PutAtomic_free _ f2 v1 Hc1 Hl1 Hr1).
  cbn [UpsertContext.length_ UpsertContext.input_].
  change (Value.size_ v1) with (Value.size_ v).
  replace (Value.size_ v <? wrap64 (Value.sizeof + Z.of_nat (List.length q)))
    with false.
  2:{ symmetry. apply Z.ltb_ge. unfold wrap64, Value.sizeof.
      rewrite Z.mod_small; lia. }
  split; [reflexivity|].
  rewrite GetAtomic_alone. cbn [value Value.length_].
  unfold ReadContext.deliver. cbn [Value.buffer].
  rewrite firstn_memcpy. reflexivity.
Qed.

Lemma refused_update_leaves_slot_usable_witness :
  exists w1 w2 : world,
    run (UpsertContext.PutAtomic
           (UpsertContext.mk 1 Scenario.too_long
                             (Z.of_nat (List.length Scenario.too_long))) 1)
        Scenario.slot_hello
    = Some (false, w1)
    /\ value w1 = Value.set_gen_lock Scenario.slot_hello
                                     (Value.gen_lock_ Scenario.slot_hello + 1)
    /\ Value.is_locked (value w1) = false
    /\ Value.is_replaced (value w1) = false
    /\ run (UpsertContext.PutAtomic
              (UpsertContext.mk 2 Scenario.bang
                                (Z.of_nat (List.length Scenario.bang))) 1)
           (value w1)
       = Some (true, w2)
    /\ ReadContext.GetAtomic 1 w2
       = Some (mk_read Scenario.bang
                       (Z.of_nat (List.length Scenario.bang)) Ok, w2).
Proof.
  exact (refused_update_leaves_slot_usable
           Scenario.slot_hello 1 2 Scenario.too_long Scenario.bang 0 0 0
           ltac:(by_evaluation) eq_refl eq_refl ltac:(by_evaluation)
           ltac:(by_evaluation) ltac:(by_evaluation) ltac:(by_evaluation)).
Defined.

(** ** RmwInitial *)

(** X6.  [RmwInitial] never calls the merge function: it stores the
    modification as it is.  On any slot it leaves lock word 0 and a capacity
    equal to the length of the modification; [Get] then gives the
    modification, and the slot is the one [Put] leaves for the same bytes. *)
Theorem RmwInitial_stores_modification
        (v : Value.t) (key : Z) (modification : list byte)
        (cb : rmw_callback) :
  addressable Value.sizeof modification ->
  let n := Z.of_nat (List.length modification) in
  exists v' : Value.t,
    run (RmwContext.RmwInitial (RmwContext.mk key modification n cb)) v
    = Some (tt, {| value := v'; log := [] |})
    /\ run (UpsertContext.Put (UpsertContext.mk key modification n)) v
       = Some (tt, {| value := v'; log := [] |})
    /\ Value.gen_lock_ v' = 0
    /\ Value.capacity v' = n
    /\ Scenario.outcome (run ReadContext.Get v')
       = Some (mk_read modification n Ok, v').
Proof.
  intros Hfit n. subst n. unfold addressable, Value.sizeof in Hfit.
  eexists. split; [reflexivity|]. split; [reflexivity|].
  split; [reflexivity|]. split.
  - unfold Value.capacity, Value.sizeof, wrap64.
    cbn [Value.size_ RmwContext.length_].
    rewrite Z.mod_small by lia. lia.
  - unfold run, ReadContext.Get, Scenario.outcome. run_monad.
    unfold ReadContext.deliver.
    cbn [Value.buffer Value.length_ RmwContext.length_
         RmwContext.modification_].
    rewrite firstn_memcpy. reflexivity.
Qed.

Lemma RmwInitial_stores_modification_witness :
  exists v' : Value.t,
    run (RmwContext.RmwInitial
           (RmwContext.mk 1 Scenario.hello 5 Scenario.fickle))
        Scenario.slot16
    = Some (tt, {| value := v'; log := [] |})
    /\ run (UpsertContext.Put (UpsertContext.mk 1 Scenario.hello 5))
           Scenario.slot16
       = Some (tt, {| value := v'; log := [] |})
    /\ Value.gen_lock_ v' = 0
    /\ Value.capacity v' = 5
    /\ Scenario.outcome (run ReadContext.Get v')
       = Some (mk_read Scenario.hello 5 Ok, v').
Proof.
  exact (RmwInitial_stores_modification
           Scenario.slot16 1 Scenario.hello Scenario.fickle
           ltac:(by_evaluation)).
Defined.

(** ** Sizes reported as 32-bit numbers *)

(** X7.  [value_size()] of an upsert context is the size [Put] records in
    the slot exactly when [sizeof(Value) + length_] is below [2^32]; from
    [2^32] on it is smaller than that size by at least [2^32].  [size()] of
    the slot [Put] leaves is always [value_size()]. *)
Theorem value_size_truncates (v : Value.t) (ctx : UpsertContext.t) :
  0 <= UpsertContext.length_ ctx ->
  Value.sizeof + UpsertContext.length_ ctx < 2 ^ 64 ->
  exists v' : Value.t,
    run (UpsertContext.Put ctx) v = Some (tt, {| value := v'; log := [] |})
    /\ Value.size_ v' = Value.sizeof + UpsertContext.length_ ctx
    /\ Value.size v' = UpsertContext.value_size ctx
    /\ (Value.size_ v' < 2 ^ 32 ->
        UpsertContext.value_size ctx = Value.size_ v')
    /\ (2 ^ 32 <= Value.size_ v' ->
        UpsertContext.value_size ctx <= Value.size_ v' - 2 ^ 32).
Proof.
  intros H0 Hfit. unfold Value.sizeof in *.
  eexists. split; [reflexivity|].
  unfold Value.size, UpsertContext.value_size. cbn [Value.size_].
  unfold wrap64, Value.sizeof. rewrite Z.mod_small by lia.
  split; [reflexivity|]. split; [reflexivity|]. split.
  - intros Hsmall. apply Z.mod_small. lia.
  - intros Hbig. word_arith.
Qed.

Lemma value_size_truncates_witness :
  exists v' : Value.t,
    run (UpsertContext.Put (UpsertContext.mk 1 [] (2 ^ 32 - 24)))
        Scenario.slot16
    = Some (tt, {| value := v'; log := [] |})
    /\ Value.size_ v' = Value.sizeof + (2 ^ 32 - 24)
    /\ Value.size v' = UpsertContext.value_size
                         (UpsertContext.mk 1 [] (2 ^ 32 - 24))
    /\ (Value.size_ v' < 2 ^ 32 ->
        UpsertContext.value_size (UpsertContext.mk 1 [] (2 ^ 32 - 24))
        = Value.size_ v')
    /\ (2 ^ 32 <= Value.size_ v' ->
        UpsertContext.value_size (UpsertContext.mk 1 [] (2 ^ 32 - 24))
        <= Value.size_ v' - 2 ^ 32).
Proof.
  exact (value_size_truncates Scenario.slot16
           (UpsertContext.mk 1 [] (2 ^ 32 - 24))
           ltac:(by_evaluation) ltac:(by_evaluation)).
Defined.

(** ** What PutAtomic leaves untouched *)

Lemma skipn_memcpy (dst src : list byte) :
  skipn (List.length src) (memcpy dst src (Z.of_nat (List.length src)))
  = skipn (List.length src) dst.
Proof.
  unfold memcpy. rewrite Nat2Z.id, firstn_all.
  rewrite skipn_app, skipn_all, Nat.sub_diag. reflexivity.
Qed.

(** X8.  Whatever it returns, [PutAtomic] on an allocated, unlocked,
    unreplaced slot never stores into the size field, keeps the extent of the
    buffer and the payload length within the capacity, and leaves every
    buffer byte beyond the new payload as it was: an update by a shorter
    payload keeps the tail of the old one in the buffer. *)
Theorem PutAtomic_frame
        (v : Value.t) (key : Z) (payload : list byte) (fuel : nat)
        (r : bool) (w : world) :
  Value.well_formed v -> Value.allocated v ->
  Value.is_locked v = false -> Value.is_replaced v = false ->
  addressable Value.sizeof payload ->
  run (UpsertContext.PutAtomic
         (UpsertContext.mk key payload (Z.of_nat (List.length payload)))
         (S fuel)) v
  = Some (r, w) ->
  Value.size_ (value w) = Value.size_ v
  /\ List.length (Value.buffer (value w)) = List.length (Value.buffer v)
  /\ Value.length_ (value w) <= Value.capacity (value w)
  /\ skipn (List.length payload) (Value.buffer (value w))
     = skipn (List.length payload) (Value.buffer v).
Proof.
  intros Hwf Hal Hl Hr Hfit E.
  destruct (PutAtomic_keeps_slot v key payload fuel r w Hwf Hal Hl Hr Hfit E)
    as (_ & (Ha' & Hbuf' & Hfits') & Hsize).
  destruct Hal as (Ha & Hbuf & Hfits).
  split; [exact Hsize|]. split.
  { unfold Value.capacity in *. lia. }
  split; [exact Hfits'|].
  destruct Hwf as (Hc & _).
  rewrite (PutAtomic_free _ fuel v Hc Hl Hr) in E.
  destruct (Value.size_ v <? _); injection E as <- <-.
  - reflexivity.
  - cbn [value Value.buffer UpsertContext.length_ UpsertContext.input_].
    apply skipn_memcpy.
Qed.

Lemma PutAtomic_frame_witness :
  exists w : world,
    run (UpsertContext.PutAtomic (Scenario.upsert Scenario.bang) 1)
        Scenario.slot_hello
    = Some (true, w)
    /\ Value.size_ (value w) = Value.size_ Scenario.slot_hello
    /\ List.length (Value.buffer (value w))
       = List.length (Value.buffer Scenario.slot_hello)
    /\ Value.length_ (value w) <= Value.capacity (value w)
    /\ skipn (List.length Scenario.bang) (Value.buffer (value w))
       = skipn (List.length Scenario.bang)
               (Value.buffer Scenario.slot_hello).
Proof.
  eexists. split; [vm_compute; reflexivity|].
  exact (PutAtomic_frame Scenario.slot_hello 1 Scenario.bang 0 true _
           ltac:(by_evaluation) ltac:(by_evaluation) eq_refl eq_refl
           ltac:(by_evaluation) eq_refl).
Defined.

(** ** Waiting *)

(** X9.  On a slot whose lock is held (locked, not replaced) and not
    released, [PutAtomic] and [RmwAtomic] do not return, however many
    attempts they are given, while [GetAtomic] returns after one round of its
    loop with what [Get] delivers and stores nothing. *)
Theorem writers_wait_readers_do_not
        (v : Value.t) (uctx : UpsertContext.t) (rctx : RmwContext.t)
        (fuel : nat) :
  uint64 (Value.gen_lock_ v) ->
  Value.is_locked v = true -> Value.is_replaced v = false ->
  run (UpsertContext.PutAtomic uctx fuel) v = None
  /\ run (RmwContext.RmwAtomic rctx fuel) v = None
  /\ run (ReadContext.GetAtomic (S fuel)) v = run ReadContext.Get v
  /\ run ReadContext.Get v
     = Some (ReadContext.deliver v value_buffer (Value.length_ v),
             {| value := v; log := [] |}).
Proof.
  intros H Hl Hr.
  split; [exact (PutAtomic_spins uctx fuel v H Hl Hr)|].
  split; [exact (RmwAtomic_spins rctx fuel v H Hl Hr)|].
  unfold run. rewrite GetAtomic_alone. split; reflexivity.
Qed.

Lemma writers_wait_readers_do_not_witness :
  let v := Value.mk (2 ^ 62 + 1) (Value.sizeof + 16) 5
                    (Scenario.hello ++ repeat x00 11) in
  run (UpsertContext.PutAtomic (Scenario.upsert Scenario.bang) 1000) v = None
  /\ run (RmwContext.RmwAtomic Scenario.rmw_bang 1000) v = None
  /\ run (ReadContext.GetAtomic 1001) v = run ReadContext.Get v
  /\ run ReadContext.Get v
     = Some (ReadContext.deliver v value_buffer (Value.length_ v),
             {| value := v; log := [] |}).
Proof.
  intros v.
  exact (writers_wait_readers_do_not v (Scenario.upsert Scenario.bang)
           Scenario.rmw_bang 1000 ltac:(by_evaluation) eq_refl eq_refl).
Defined.

(** ** Several writers on one slot *)

Lemma count_update (p : Interleaving.writer_pc -> bool)
      (ws : list (UpsertContext.t * Interleaving.writer_pc)) (i : nat)
      (ctx ctx' : UpsertContext.t) (pc pc' : Interleaving.writer_pc) :
  nth_error ws i = Some (ctx, pc) ->
  (Contention.count p (Interleaving.update_nth i (fun _ => (ctx', pc')) ws)
   + (if p pc then 1 else 0)
   = Contention.count p ws + (if p pc' then 1 else 0))%nat.
Proof.
  revert i. induction ws as [|[c0 pc0] ws IH]; intros i E.
  - destruct i; discriminate E.
  - destruct i as [|i]; cbn [nth_error] in E.
    + injection E as -> ->. cbn [Interleaving.update_nth Contention.count].
      lia.
    + cbn [Interleaving.update_nth Contention.count].
      pose proof (IH i E). lia.
Qed.

Lemma count_member (p : Interleaving.writer_pc -> bool)
      (ws : list (UpsertContext.t * Interleaving.writer_pc)) (i : nat)
      (ctx : UpsertContext.t) (pc : Interleaving.writer_pc) :
  nth_error ws i = Some (ctx, pc) -> p pc = true ->
  (1 <= Contention.count p ws)%nat.
Proof.
  revert i. induction ws as [|[c0 pc0] ws IH]; intros i E Hp.
  - destruct i; discriminate E.
  - destruct i as [|i]; cbn [nth_error] in E; cbn [Contention.count].
    + injection E as -> ->. rewrite Hp. lia.
    + pose proof (IH i E Hp). lia.
Qed.

(** A step that changes neither the lock word nor whether its thread is in
    the critical section or has succeeded keeps the invariant. *)
Lemma invariant_unchanged (c : Contention.config) (i : nat)
      (ctx : UpsertContext.t) (pc pc' : Interleaving.writer_pc)
      (v' : Value.t) :
  Contention.invariant c ->
  nth_error (Contention.writers c) i = Some (ctx, pc) ->
  Value.gen_lock_ v' = Value.gen_lock_ (Contention.shared c) ->
  Contention.in_critical_section pc' = Contention.in_critical_section pc ->
  Contention.has_succeeded pc' = Contention.has_succeeded pc ->
  Contention.invariant
    (Contention.mk_config
       v' (Interleaving.update_nth i (fun _ => (ctx, pc'))
                                   (Contention.writers c))).
Proof.
  intros (Hc & Hh & Hhl & Hs & Hsr) E Hword Hcs Hsu.
  pose proof (count_update Contention.in_critical_section _ i ctx ctx pc pc' E)
    as C1.
  pose proof (count_update Contention.has_succeeded _ i ctx ctx pc pc' E)
    as C2.
  rewrite Hcs in C1. rewrite Hsu in C2.
  unfold Contention.invariant, Contention.holders, Contention.successes,
    Value.is_locked, Value.is_replaced in *.
  cbn [Contention.shared Contention.writers]. rewrite Hword.
  split; [exact Hc|]. split; [lia|].
  split; [intros X; apply Hhl; lia|]. split; [lia|].
  intros X. apply Hsr. lia.
Qed.

(** Every step of every thread keeps the invariant. *)
Lemma step_invariant (c : Contention.config) (i : nat) :
  Contention.invariant c -> Contention.invariant (Contention.step c i).
Proof.
  intros Hinv. unfold Contention.step.
  destruct (nth_error (Contention.writers c) i) as [[ctx pc]|] eqn:E;
    [|exact Hinv].
  pose proof Hinv as (Hc & Hh & Hhl & Hs & Hsr).
  pose proof (count_update Contention.in_critical_section
                           (Contention.writers c) i ctx ctx pc) as C1.
  pose proof (count_update Contention.has_succeeded
                           (Contention.writers c) i ctx ctx pc) as C2.
  destruct pc as [| | | |b|r]; cbn [Interleaving.writer_step].
  - (* try_lock *)
    rewrite (try_lock_spec _ Hc).
    destruct (GenLock.locked
                (GenLock.of_control (Value.gen_lock_ (Contention.shared c))))
      eqn:Hl;
      [|destruct (GenLock.replaced
                    (GenLock.of_control
                       (Value.gen_lock_ (Contention.shared c)))) eqn:Hr];
      cbn [orb negb andb].
    + destruct (GenLock.replaced _);
        apply (invariant_unchanged c i ctx _ _ _ Hinv E); reflexivity.
    + apply (invariant_unchanged c i ctx _ _ _ Hinv E); reflexivity.
    + specialize (C1 Interleaving.w_check E).
      specialize (C2 Interleaving.w_check E).
      cbn [Contention.in_critical_section Contention.has_succeeded] in C1, C2.
      destruct (of_control_locked _ Hc Hl Hr) as [Hf Hw].
      unfold Contention.invariant, Contention.holders, Contention.successes,
        Value.is_locked, Value.is_replaced, AtomicGenLock.load in *.
      cbn [Contention.shared Contention.writers Value.set_gen_lock
           Value.gen_lock_].
      assert (H0 : Contention.count Contention.in_critical_section
                                    (Contention.writers c) = 0%nat).
      { destruct (Nat.eq_dec
                    (Contention.count Contention.in_critical_section
                                      (Contention.writers c)) 1) as [H1|H1].
        - destruct (Hhl H1) as [X _]. congruence.
        - lia. }
      assert (S0 : Contention.count Contention.has_succeeded
                                    (Contention.writers c) = 0%nat).
      { destruct (Nat.eq_dec
                    (Contention.count Contention.has_succeeded
                                      (Contention.writers c)) 1) as [H1|H1].
        - pose proof (Hsr H1). congruence.
        - lia. }
      rewrite Hf. cbn [GenLock.locked GenLock.replaced].
      destruct (word_fields _ Hc) as (g & l & r' & Hg & Hcw & Hfw).
      rewrite Hfw in Hl, Hr. cbn [GenLock.locked GenLock.replaced] in Hl, Hr.
      subst l r'.
      split; [unfold uint64 in *; lia|]. split; [lia|].
      split; [intros _; split; reflexivity|]. split; [lia|].
      intros X. lia.
  - (* size test *)
    destruct (Value.size_ _ <? _);
      apply (invariant_unchanged c i ctx _ _ _ Hinv E); reflexivity.
  - apply (invariant_unchanged c i ctx _ _ _ Hinv E); reflexivity.
  - apply (invariant_unchanged c i ctx _ _ _ Hinv E); reflexivity.
  - (* unlock *)
    specialize (C1 (Interleaving.w_return (negb b)) E).
    specialize (C2 (Interleaving.w_return (negb b)) E).
    pose proof (count_member Contention.in_critical_section _ i ctx
                             (Interleaving.w_unlock b) E eq_refl) as Hpos.
    cbn [Contention.in_critical_section Contention.has_succeeded] in C1, C2.
    unfold Contention.invariant, Contention.holders, Contention.successes,
      Value.is_locked, Value.is_replaced, AtomicGenLock.load in *.
    cbn [Contention.shared Contention.writers Value.set_gen_lock
         Value.gen_lock_].
    destruct (Hhl ltac:(lia)) as [Hl Hr].
    assert (S0 : Contention.count Contention.has_succeeded
                                  (Contention.writers c) = 0%nat).
    { destruct (Nat.eq_dec
                  (Contention.count Contention.has_succeeded
                                    (Contention.writers c)) 1) as [H1|H1].
      - pose proof (Hsr H1). congruence.
      - lia. }
    pose proof (unlock_locked _ b Hc Hl) as U.
    unfold AtomicGenLock.load in U. rewrite U. cbv zeta.
    cbn [GenLock.locked GenLock.replaced]. rewrite Hr.
    split; [apply unlock_range|].
    split; [lia|]. split; [intros X; lia|].
    destruct b; cbn [negb] in *.
    + split; [lia|]. intros X. lia.
    + split; [lia|]. intros _. reflexivity.
  - (* returned *)
    apply (invariant_unchanged c i ctx _ _ _ Hinv E); reflexivity.
Qed.

Lemma count_start (p : Interleaving.writer_pc -> bool)
      (ctxs : list UpsertContext.t) :
  p Interleaving.w_try_lock = false ->
  Contention.count
    p (map (fun ctx => (ctx, Interleaving.w_try_lock)) ctxs) = 0%nat.
Proof.
  intros Hp. induction ctxs as [|ctx ctxs IH]; [reflexivity|].
  cbn [map Contention.count]. rewrite Hp, IH. reflexivity.
Qed.

Lemma run_invariant (sched : list nat) (c : Contention.config) :
  Contention.invariant c ->
  Contention.invariant (Contention.run_schedule sched c).
Proof.
  revert c. induction sched as [|i sched IH]; intros c Hinv; [exact Hinv|].
  cbn [Contention.run_schedule fold_left].
  apply IH. apply step_invariant. exact Hinv.
Qed.

Lemma start_invariant (v : Value.t) (ctxs : list UpsertContext.t) :
  uint64 (Value.gen_lock_ v) ->
  Contention.invariant (Contention.start v ctxs).
Proof.
  intros Hc. unfold Contention.invariant, Contention.holders,
               Contention.successes, Contention.start.
  cbn [Contention.shared Contention.writers].
  rewrite !count_start by reflexivity.
  split; [exact Hc|]. split; [lia|]. split; [intros X; discriminate X|].
  split; [lia|]. intros X; discriminate X.
Qed.

(** X10.  Mutual exclusion.  However the steps of any number of threads
    running [PutAtomic] on one slot are interleaved, at most one thread is
    between its successful [try_lock] and the end of its [unlock], and while
    one is, the lock word is locked and not replaced. *)
Theorem PutAtomic_mutual_exclusion
        (v : Value.t) (ctxs : list UpsertContext.t) (sched : list nat) :
  uint64 (Value.gen_lock_ v) ->
  let c := Contention.run_schedule sched (Contention.start v ctxs) in
  (Contention.holders c <= 1)%nat
  /\ (Contention.holders c = 1%nat ->
      Value.is_locked (Contention.shared c) = true
      /\ Value.is_replaced (Contention.shared c) = false).
Proof.
  intros Hc c.
  destruct (run_invariant sched _ (start_invariant v ctxs Hc))
    as (_ & Hh & Hhl & _).
  split; [exact Hh | exact Hhl].
Qed.

Lemma PutAtomic_mutual_exclusion_witness :
  let c := Contention.run_schedule
             [0; 1; 0; 1; 2; 0; 1]%nat
             (Contention.start
                Scenario.slot_hello
                [Scenario.upsert Scenario.bang;
                 Scenario.upsert Scenario.hello;
                 Scenario.upsert Scenario.too_long]) in
  Contention.holders c = 1%nat
  /\ Value.is_locked (Contention.shared c) = true
  /\ Value.is_replaced (Contention.shared c) = false.
Proof.
  intros c.
  assert (H1 : Contention.holders c = 1%nat) by (vm_compute; reflexivity).
  split; [exact H1|].
  exact (proj2 (PutAtomic_mutual_exclusion
                  Scenario.slot_hello
                  [Scenario.upsert Scenario.bang;
                   Scenario.upsert Scenario.hello;
                   Scenario.upsert Scenario.too_long]
                  [0; 1; 0; 1; 2; 0; 1]%nat ltac:(by_evaluation)) H1).
Defined.

(** X11.  However the steps of any number of threads running [PutAtomic]
    on one slot are interleaved, at most one of the calls returns [true], and
    once one has, the replaced bit of the slot is set. *)
Theorem PutAtomic_at_most_one_success
        (v : Value.t) (ctxs : list UpsertContext.t) (sched : list nat) :
  uint64 (Value.gen_lock_ v) ->
  let c := Contention.run_schedule sched (Contention.start v ctxs) in
  (Contention.successes c <= 1)%nat
  /\ (Contention.successes c = 1%nat ->
      Value.is_replaced (Contention.shared c) = true).
Proof.
  intros Hc c.
  destruct (run_invariant sched _ (start_invariant v ctxs Hc))
    as (_ & _ & _ & Hs & Hsr).
  split; [exact Hs | exact Hsr].
Qed.

Lemma PutAtomic_at_most_one_success_witness :
  let c := Contention.run_schedule
             [0; 0; 0; 0; 0; 1; 2; 1]%nat
             (Contention.start
                Scenario.slot_hello
                [Scenario.upsert Scenario.bang;
                 Scenario.upsert Scenario.hello;
                 Scenario.upsert Scenario.too_long]) in
  map snd (Contention.writers c)
  = [Interleaving.w_return true; Interleaving.w_return false;
     Interleaving.w_return false]
  /\ Contention.successes c = 1%nat
  /\ Value.is_replaced (Contention.shared c) = true.
Proof.
  intros c.
  assert (H1 : Contention.successes c = 1%nat) by (vm_compute; reflexivity).
  split; [vm_compute; reflexivity|]. split; [exact H1|].
  exact (proj2 (PutAtomic_at_most_one_success
                  Scenario.slot_hello
                  [Scenario.upsert Scenario.bang;
                   Scenario.upsert Scenario.hello;
                   Scenario.upsert Scenario.too_long]
                  [0; 0; 0; 0; 0; 1; 2; 1]%nat ltac:(by_evaluation)) H1).
Defined.

(** ** When GetAtomic retries *)

(** Five steps of the writer on a slot nobody holds, whatever the readers
    are doing: the slot of [PutAtomic], one generation later. *)
Lemma writer_completes (ctx : UpsertContext.t) (v : Value.t)
      (rs : list Interleaving.reader_pc) :
  uint64 (Value.gen_lock_ v) ->
  Value.is_locked v = false -> Value.is_replaced v = false ->
  exists (r : bool) (w : world),
    run (UpsertContext.PutAtomic ctx 1) v = Some (r, w)
    /\ Interleaving.run_schedule
         ctx (repeat Interleaving.the_writer 5)
         (Interleaving.mk_config v Interleaving.w_try_lock rs)
       = Interleaving.mk_config (value w) (Interleaving.w_return r) rs
    /\ GenLock.gen_number (AtomicGenLock.load (Value.gen_lock_ (value w)))
       = (GenLock.gen_number (AtomicGenLock.load (Value.gen_lock_ v)) + 1)
           mod 2 ^ 62.
Proof.
  intros H Hl Hr. rewrite (PutAtomic_free ctx 0 v H Hl Hr).
  unfold Interleaving.run_schedule.
  cbn [repeat fold_left].
  unfold Interleaving.sched_step at 5.
  cbn [Interleaving.shared Interleaving.writer Interleaving.readers
       Interleaving.writer_step].
  rewrite (try_lock_spec _ H).
  unfold Value.is_locked, Value.is_replaced, AtomicGenLock.load in Hl, Hr.
  rewrite Hl, Hr. cbn [orb negb andb].
  unfold Interleaving.sched_step at 4.
  cbn [Interleaving.shared Interleaving.writer Interleaving.readers
       Interleaving.writer_step Value.size_ Value.set_gen_lock].
  destruct (of_control_locked _ H Hl Hr) as [Hf Hw].
  assert (Hrange : uint64 (Value.gen_lock_ v + 2 ^ 62)).
  { destruct (word_fields _ H) as (g & l & r' & Hg & Hcw & Hfw).
    rewrite Hfw in Hl, Hr. cbn [GenLock.locked GenLock.replaced] in Hl, Hr.
    subst l r'. unfold uint64. lia. }
  assert (G : forall b : bool,
             GenLock.gen_number
               (AtomicGenLock.load
                  (AtomicGenLock.unlock b (Value.gen_lock_ v + 2 ^ 62)))
             = (GenLock.gen_number (GenLock.of_control (Value.gen_lock_ v))
                + 1) mod 2 ^ 62).
  { intros b. pose proof (unlock_locked _ b Hrange) as U.
    unfold AtomicGenLock.load in U |- *. rewrite Hf in U.
    rewrite (U eq_refl). reflexivity. }
  destruct (Value.size_ v <? _).
  - eexists _, _. split; [reflexivity|]. split; [reflexivity|].
    exact (G true).
  - eexists _, _. split; [reflexivity|]. split; [reflexivity|].
    exact (G false).
Qed.

(** X12.  An in-place update that runs from its [try_lock] to the end of
    its [unlock] between the two loads of a [GetAtomic] round is always
    detected: the generation numbers differ, the reader starts its loop
    again, and it then delivers the pair the update left in the slot. *)
Theorem GetAtomic_detects_completed_update
        (ctx : UpsertContext.t) (v : Value.t) :
  uint64 (Value.gen_lock_ v) ->
  Value.is_locked v = false -> Value.is_replaced v = false ->
  let wr := Interleaving.the_writer in
  let rd := Interleaving.reader 0 in
  exists (r : bool) (w : world),
    run (UpsertContext.PutAtomic ctx 1) v = Some (r, w)
    /\ Interleaving.readers
         (Interleaving.run_schedule
            ctx ([rd; rd] ++ repeat wr 5 ++ [rd]) (Interleaving.start v 1))
       = [Interleaving.r_load_before]
    /\ Interleaving.delivered
         (Interleaving.run_schedule
            ctx ([rd; rd] ++ repeat wr 5 ++ [rd] ++ [rd; rd; rd; rd])
            (Interleaving.start v 1))
       = [Interleaving.pair_of_slot (value w)].
Proof.
  intros H Hl Hr wr rd. subst wr rd.
  destruct (writer_completes
              ctx v
              [Interleaving.r_load_after
                 (AtomicGenLock.load (Value.gen_lock_ v)) value_buffer
                 (Value.length_ v)] H Hl Hr)
    as (r & w & E & Hrun & Hgen).
  exists r, w. split; [exact E|].
  assert (Hretry :
            Interleaving.run_schedule
              ctx ([Interleaving.reader 0; Interleaving.reader 0]
                   ++ repeat Interleaving.the_writer 5
                   ++ [Interleaving.reader 0])
              (Interleaving.start v 1)
            = Interleaving.mk_config (value w) (Interleaving.w_return r)
                                     [Interleaving.r_load_before]).
  { unfold Interleaving.run_schedule in *.
    rewrite !fold_left_app.
    change (fold_left (Interleaving.sched_step ctx)
                      [Interleaving.reader 0; Interleaving.reader 0]
                      (Interleaving.start v 1))
      with (Interleaving.mk_config
              v Interleaving.w_try_lock
              [Interleaving.r_load_after
                 (AtomicGenLock.load (Value.gen_lock_ v)) value_buffer
                 (Value.length_ v)]).
    rewrite Hrun.
    cbn [fold_left Interleaving.sched_step Interleaving.shared
         Interleaving.writer Interleaving.readers Interleaving.update_nth
         Interleaving.reader_step].
    rewrite Hgen.
    pose proof (gen_number_range (Value.gen_lock_ v)) as Hg.
    unfold AtomicGenLock.load.
    replace (_ =? _) with false; [reflexivity|].
    symmetry. apply Z.eqb_neq. word_arith. }
  split.
  - rewrite Hretry. reflexivity.
  - unfold Interleaving.run_schedule in *.
    rewrite !app_assoc. rewrite fold_left_app. rewrite <- !app_assoc.
    rewrite Hretry.
    cbn [fold_left Interleaving.sched_step Interleaving.shared
         Interleaving.writer Interleaving.readers Interleaving.update_nth
         Interleaving.reader_step].
    rewrite Z.eqb_refl. reflexivity.
Qed.

Lemma GetAtomic_detects_completed_update_witness :
  let wr := Interleaving.the_writer in
  let rd := Interleaving.reader 0 in
  let ctx := Scenario.upsert Scenario.bang in
  Interleaving.delivered
    (Interleaving.run_schedule
       ctx ([rd; rd] ++ repeat wr 5 ++ [rd] ++ [rd; rd; rd; rd])
       (Interleaving.start Scenario.slot_hello 1))
  = [mk_read Scenario.bang 1 Ok].
Proof.
  intros wr rd ctx.
  destruct (GetAtomic_detects_completed_update
              ctx Scenario.slot_hello ltac:(by_evaluation) eq_refl eq_refl)
    as (r & w & E & _ & D).
  fold wr rd in D. rewrite D.
  vm_compute in E. injection E as _ <-. reflexivity.
Defined.

(** ** Calls of the merge function *)

(** X13.  [RmwAtomic] calls the merge function only while it holds the
    lock: in the log of a call that returns, every call of the merge function
    lies between the successful [try_lock] and the [unlock]; there are two
    such calls if [RmwAtomic] returns [true], one if it returns [false] on a
    slot that was not retired, and none on a retired slot. *)
Theorem RmwAtomic_callback_calls
        (ctx : RmwContext.t) (v : Value.t) (fuel : nat)
        (r : bool) (w : world) :
  uint64 (Value.gen_lock_ v) ->
  run (RmwContext.RmwAtomic ctx fuel) v = Some (r, w) ->
  cb_under_lock false (log w) = true
  /\ cb_calls (log w)
     = (if Value.is_replaced v then 0%nat else if r then 2%nat else 1%nat)
  /\ (Value.is_replaced v = false ->
      exists calls : list event,
        log w = [ev_try_lock true false] ++ calls ++ [ev_unlock (negb r)]
        /\ cb_calls calls = cb_calls (log w)
        /\ forallb (fun e => match e with
                              | ev_try_lock _ _ | ev_unlock _ => false
                              | _ => true
                              end) calls = true).
Proof.
  intros H E.
  destruct (Value.is_replaced v) eqn:Hr.
  - destruct fuel as [|fuel]; [discriminate E|].
    rewrite (RmwAtomic_replaced ctx fuel v H Hr) in E.
    injection E as <- <-. split; [reflexivity|]. split; [reflexivity|].
    intros X; discriminate X.
  - destruct (Value.is_locked v) eqn:Hl.
    + rewrite (RmwAtomic_spins ctx fuel v H Hl Hr) in E. discriminate E.
    + destruct fuel as [|fuel]; [discriminate E|].
      rewrite (RmwAtomic_free ctx v H Hl Hr fuel) in E.
      destruct (Value.size_ v <? _); injection E as <- <-;
        (split; [reflexivity|]); (split; [reflexivity|]); intros _;
        cbn [log negb].
      * eexists [_]. split; [reflexivity|]. split; reflexivity.
      * eexists [_; _; _]. split; [reflexivity|]. split; reflexivity.
Qed.

Lemma RmwAtomic_callback_calls_witness :
  exists w : world,
    run (RmwContext.RmwAtomic Scenario.rmw_bang 1) Scenario.slot_hello
    = Some (true, w)
    /\ cb_under_lock false (log w) = true
    /\ cb_calls (log w) = 2%nat.
Proof.
  eexists. split; [vm_compute; reflexivity|].
  destruct (RmwAtomic_callback_calls
              Scenario.rmw_bang Scenario.slot_hello 1 true _
              ltac:(by_evaluation) eq_refl) as (U & C & _).
  split; [exact U | exact C].
Defined.

(** ** The exported functions *)

(** X14.  Every exported function that switches on the kind of store
    reaches the store through the member of the union that holds it.  The
    four functions whose cases have no [break] ([faster_destroy],
    [faster_complete_pending], [faster_stop_session],
    [faster_refresh_session]) go on, for a [NULL_DISK] handle, to the
    [FILESYSTEM_DISK] case and reach the store a second time through the
    member [store]; no other call goes through a member that does not hold
    the store. *)
Theorem switch_dispatch (f : CApi.entry_point) (t : CApi.store_type) :
  CApi.store_calls f t
  = if match f with
       | CApi.faster_destroy | CApi.faster_complete_pending
       | CApi.faster_stop_session | CApi.faster_refresh_session => true
       | _ => false
       end
       && CApi.store_type_eqb t CApi.NULL_DISK
    then [CApi.null_store; CApi.store]
    else [CApi.member_of t].
Proof.
  destruct f, t; reflexivity.
Qed.

(** X15.  The session identifiers [faster_recover] returns are stored
    within the allocated array exactly when there is at most one identifier;
    a single identifier is returned as its first 37 bytes, followed by zero
    bytes up to 37 bytes when it is shorter. *)
Theorem recover_session_ids_bounds
        (ids : list (list byte)) (id : list byte) :
  ((exists cells, CApi.recover_session_ids ids = Some cells)
   <-> (List.length ids <= 1)%nat)
  /\ CApi.recover_session_ids [id]
     = Some [Some (firstn CApi.session_len id
                   ++ repeat x00 (CApi.session_len - List.length id))].
Proof.
  split.
  - destruct ids as [|id1 [|id2 ids]].
    + split; [intros _; cbn; lia | intros _; eexists; reflexivity].
    + split; [intros _; cbn; lia | intros _; eexists; reflexivity].
    + split.
      * intros [cells E]. discriminate E.
      * cbn [List.length]. lia.
  - reflexivity.
Qed.
